(** * masterchat: continuation-token reader, fetch loop, chat listener and
    stream pool.

    A shallow embedding of
    - [ProtoBufReader] (protobuf reader: cursor, varints, fixed-width reads),
    - [Masterchat.fetch], [Masterchat.iterate], [Masterchat.listen],
      [Masterchat.stop],
    - [StreamPool],
    with the properties stated about them. *)

From Stdlib Require Import ZArith Lia List Bool String.
From Stdlib Require Import Strings.Byte.
From stdpp Require Import base option list strings gmap.
Import ListNotations.
Local Open Scope Z_scope.

(** ** JavaScript values shared by the modules *)

(** The exceptions the embedded code can raise. *)
Inductive JsError : Type :=
  | RangeError                              (* Buffer read out of bounds *)
  | FetchAborted                            (* rejection with type "aborted" *)
  | AbortError
  | NoPermissionError (message : string)
  | UnavailableError (message : string)
  | InvalidArgumentError (message : string)
  | DisabledChatError (reason : string)
  | MembersOnlyError (reason : string)
  | DecodeError                             (* malformed continuation token *)
  | TransportError (message : string)       (* rejection of post / res.json() *)
  | PlainError (message : string).          (* new Error(message) *)

(** A computation that returns or throws. *)
Inductive outcome (A : Type) : Type :=
  | Ret (a : A)
  | Raise (e : JsError).
Arguments Ret {A} a.
Arguments Raise {A} e.

(** ** Buffers *)

(** The numeric value of a byte of a [Buffer]. *)
Definition u8 (b : byte) : Z := Z.of_N (Byte.to_N b).

(** [buf[i]]: [None] stands for [undefined]. *)
Definition buf_at (buf : list byte) (i : Z) : option byte :=
  if i <? 0 then None else nth_error buf (Z.to_nat i).

(** [x & m] for [x = buf[i]]; [undefined & m] is [0]. *)
Definition land_at (buf : list byte) (i m : Z) : Z :=
  match buf_at buf i with
  | Some b => Z.land (u8 b) m
  | None => 0
  end.

(** Index normalisation of [slice]: a negative index counts from the end and
    the result is clamped to the buffer. *)
Definition clamp_index (len i : Z) : Z :=
  if i <? 0 then Z.max (len + i) 0 else Z.min i len.

(** [buf.slice(start, stop)]. *)
Definition slice (buf : list byte) (start stop : Z) : list byte :=
  let len := Z.of_nat (length buf) in
  let b := clamp_index len start in
  let e := clamp_index len stop in
  firstn (Z.to_nat (e - b)) (skipn (Z.to_nat b) buf).

(** Little-endian value of a byte string. *)
Fixpoint le_value (bs : list byte) : Z :=
  match bs with
  | [] => 0
  | b :: rest => u8 b + 256 * le_value rest
  end.

(** [buf.readUInt32LE(offset)] ([width = 4]) and [buf.readBigUInt64LE(offset)]
    ([width = 8]): a [RangeError] unless the whole word lies in the buffer. *)
Definition readUIntLE (width : Z) (buf : list byte) (offset : Z) : outcome Z :=
  if (offset <? 0) || (Z.of_nat (length buf) <? offset + width)
  then Raise RangeError
  else Ret (le_value (firstn (Z.to_nat width) (skipn (Z.to_nat offset) buf))).

(** ** ProtoBufReader *)

Module ProtoBufReader.

Record t : Type := mk { buf : list byte; c : Z; s : Z }.

(** [constructor(buf)] *)
Definition new (b : list byte) : t := {| buf := b; c := 0; s := 0 |}.

Definition set_c (r : t) (c' : Z) : t :=
  {| buf := buf r; c := c'; s := s r |}.

(** [static splitHeader(n)]: [[n >> 3n, Number(n & 0x7n)]] *)
Definition splitHeader (n : Z) : Z * Z := (Z.shiftr n 3, Z.land n 7).

(** The [reduce] of [parseVariant], from index [i] with accumulator [r]. *)
Fixpoint reduce_from (i : Z) (bs : list byte) (r : Z) : Z :=
  match bs with
  | [] => r
  | b :: rest =>
      reduce_from (i + 1) rest
        (Z.lor r (Z.shiftl (Z.land (u8 b) 127) (i * 7)))
  end.

(** [static parseVariant(buf)] *)
Definition parseVariant (bs : list byte) : Z := reduce_from 0 bs 0.

(** [isEnded()]: [this.c === this.buf.length] *)
Definition isEnded (r : t) : bool := c r =? Z.of_nat (length (buf r)).

(** [remainingBytes()] *)
Definition remainingBytes (r : t) : Z := Z.of_nat (length (buf r)) - c r.

(** [eat(bytes)] *)
Definition eat (bytes : Z) (r : t) : option (list byte) * t :=
  if isEnded r then (None, r)
  else (Some (slice (buf r) (c r) (c r + bytes)), set_c r (c r + bytes)).

(** [eatUInt32()] *)
Definition eatUInt32 (r : t) : outcome (option Z) * t :=
  if isEnded r then (Ret None, r)
  else match readUIntLE 4 (buf r) (c r) with
       | Raise e => (Raise e, r)
       | Ret n => (Ret (Some n), set_c r (c r + 4))
       end.

(** [eatUInt64()] *)
Definition eatUInt64 (r : t) : outcome (option Z) * t :=
  if isEnded r then (Ret None, r)
  else match readUIntLE 8 (buf r) (c r) with
       | Raise e => (Raise e, r)
       | Ret n => (Ret (Some n), set_c r (c r + 8))
       end.

(** [while (this.buf[this.c] & 0x80) this.c += 1;] run for at most [fuel]
    iterations. *)
Fixpoint skip_continuation (fuel : nat) (bs : list byte) (cur : Z) : Z :=
  match fuel with
  | O => cur
  | S f =>
      if land_at bs cur 128 =? 0 then cur
      else skip_continuation f bs (cur + 1)
  end.

(** [eatVariant()].  The loop leaves the buffer after at most
    [length buf] steps (see [skip_continuation_exits]). *)
Definition eatVariant (r : t) : option Z * t :=
  if isEnded r then (None, r)
  else
    let start := c r in
    let c1 := skip_continuation (S (length (buf r))) (buf r) (c r) in
    let c2 := c1 + 1 in
    (Some (parseVariant (slice (buf r) start c2)), set_c r c2).

(** [save()] *)
Definition save (r : t) : t := {| buf := buf r; c := c r; s := c r |}.

(** [rewind(b?)] *)
Definition rewind (b : option Z) (r : t) : t :=
  match b with
  | Some n => set_c r (c r - n)
  | None => set_c r (s r)
  end.

End ProtoBufReader.

(** ** Token codec *)

Module TokenCodec.
Import ProtoBufReader.

(** The byte with numeric value [z mod 256]. *)
Definition byte_of_Z (z : Z) : byte :=
  match Byte.of_N (Z.to_N (z mod 256)) with
  | Some b => b
  | None => x00
  end.

(** Modelled from the spec: the varint writer of the token encoder
    ([./protobuf/assembler] is not among the sources).  Each byte carries
    seven bits of the value, least-significant group first, and its high bit
    is set exactly when another byte follows. *)
Fixpoint encode_varint_fuel (fuel : nat) (n : Z) : list byte :=
  match fuel with
  | O => [byte_of_Z n]
  | S f =>
      if n <? 128 then [byte_of_Z n]
      else byte_of_Z (Z.lor (Z.land n 127) 128)
             :: encode_varint_fuel f (Z.shiftr n 7)
  end.

Definition encode_varint (n : Z) : list byte :=
  encode_varint_fuel (Z.to_nat (Z.log2 n)) n.

(** The integer a varint stands for: each byte contributes its low seven
    bits, least-significant group first. *)
Fixpoint varint_value (bs : list byte) : Z :=
  match bs with
  | [] => 0
  | b :: rest => (u8 b) mod 128 + 128 * varint_value rest
  end.

(** The continuation flag of a byte. *)
Definition continues (b : byte) : bool := negb (Z.land (u8 b) 128 =? 0).

(** A well-formed varint: every byte but the last has the flag. *)
Definition is_varint (bs : list byte) : Prop :=
  exists init last,
    bs = init ++ [last]
    /\ Forall (fun b => continues b = true) init
    /\ continues last = false.


(** [width] bytes of [v], least-significant byte first. *)
Fixpoint le_bytes (width : nat) (v : Z) : list byte :=
  match width with
  | O => []
  | S w => byte_of_Z v :: le_bytes w (v / 256)
  end.

(** A flat integer field: its payload is a varint or a fixed-width
    integer. *)
Inductive payload : Type :=
  | Varint (v : Z)
  | Fixed64 (v : Z)
  | Fixed32 (v : Z).

Record field : Type := mkField { number : Z; value : payload }.

Definition wire_type (p : payload) : Z :=
  match p with
  | Varint _ => 0
  | Fixed64 _ => 1
  | Fixed32 _ => 5
  end.

Definition valid_payload (p : payload) : Prop :=
  match p with
  | Varint v => 0 <= v
  | Fixed64 v => 0 <= v < 2 ^ 64
  | Fixed32 v => 0 <= v < 2 ^ 32
  end.

Definition valid_field (f : field) : Prop :=
  0 <= number f /\ valid_payload (value f).

(** Modelled from the spec: the token encoder ([./protobuf/assembler] is
    not among the sources).  "message fields are (field-number, wire-type)
    header varints followed by a payload varint or fixed-width integer",
    with the header [field_number << 3 | wire_type] that [splitHeader]
    inverts. *)
Definition encode_payload (p : payload) : list byte :=
  match p with
  | Varint v => encode_varint v
  | Fixed64 v => le_bytes 8 v
  | Fixed32 v => le_bytes 4 v
  end.

Definition encode_field (f : field) : list byte :=
  encode_varint (Z.lor (Z.shiftl (number f) 3) (wire_type (value f)))
    ++ encode_payload (value f).

Definition encode (fs : list field) : list byte :=
  concat (map encode_field fs).

(** Modelled from the spec: the token decoder ([./protobuf/parser] is not
    among the sources), built on the reader above: read a header varint,
    split it, read the payload its wire type announces; "no more data"
    where a header is expected ends the message, anywhere else the input
    is malformed. *)
Definition decode_payload (wt : Z) (r : t) : outcome payload * t :=
  if wt =? 0 then
    match eatVariant r with
    | (Some v, r') => (Ret (Varint v), r')
    | (None, r') => (Raise DecodeError, r')
    end
  else if wt =? 1 then
    match eatUInt64 r with
    | (Ret (Some v), r') => (Ret (Fixed64 v), r')
    | (Ret None, r') => (Raise DecodeError, r')
    | (Raise e, r') => (Raise e, r')
    end
  else if wt =? 5 then
    match eatUInt32 r with
    | (Ret (Some v), r') => (Ret (Fixed32 v), r')
    | (Ret None, r') => (Raise DecodeError, r')
    | (Raise e, r') => (Raise e, r')
    end
  else (Raise DecodeError, r).

Fixpoint decode_fields (fuel : nat) (r : t) : outcome (list field) :=
  match eatVariant r with
  | (None, _) => Ret []
  | (Some h, r1) =>
      match fuel with
      | O => Raise DecodeError
      | S f =>
          let (fn, wt) := splitHeader h in
          match decode_payload wt r1 with
          | (Raise e, _) => Raise e
          | (Ret p, r2) =>
              match decode_fields f r2 with
              | Ret fs => Ret (mkField fn p :: fs)
              | Raise e => Raise e
              end
          end
      end
  end.

Definition decode (bs : list byte) : outcome (list field) :=
  decode_fields (length bs) (new bs).

End TokenCodec.

(** ** Masterchat: data *)

(** The event decoder is a collaborator ([parseChatAction],
    [unwrapReplayActions] and the [type] tag of an action are not among the
    sources); the code below only maps it over the raw entries. *)
Class Decoder : Type := {
  YTAction : Type;
  Action : Type;
  parseChatAction : YTAction -> option Action;
  unwrapReplayActions : list YTAction -> list YTAction;
  isAddChatItemAction : Action -> bool
}.

(** [YTChatErrorStatus]; [Unrecognized] is any status the [switch] of
    [fetch] has no case for. *)
Inductive YTChatErrorStatus : Type :=
  | PermissionDenied | NotFound | Invalid | Unavailable | Internal
  | Unrecognized.

(** [constants.EP_GLC] (live chat) and [constants.EP_GLCR] (replay). *)
Inductive Endpoint : Type := EP_GLC | EP_GLCR.

Record TimedContinuation : Type :=
  mkContinuation { token : string; timeoutMs : Z }.

Record Target : Type := mkTarget { t_channelId : string; t_videoId : string }.

(** The [continuation] of a request body: the caller's token, or a fresh one
    assembled by [lrc] (live) or [rtc] (replay). *)
Inductive ContinuationParam : Type :=
  | GivenToken (tok : string)
  | Lrc (target : Target) (top : bool)
  | Rtc (target : Target) (top : bool).

(** First argument of [fetch]: a token or a [FetchChatOptions] object, of
    which only [topChat] is read.  (The options that may follow a token
    only feed [topChat], which is not used when a token is given.) *)
Inductive FetchArg : Type :=
  | Token (tok : string)
  | Options (topChat : option bool).

Section MasterchatData.
Context `{Decoder}.

(** [continuationContents], as [fetch] reads it:
    [getTimedContinuation(continuationContents)] and
    [liveChatContinuation.actions]. *)
Record ContinuationContents : Type := mkContents {
  timedContinuation : option TimedContinuation;
  rawActions : option (list YTAction)
}.

(** The parsed body of a poll response. [contents] is the text
    [runsToString(obj.contents.messageRenderer.text.runs)] when the key
    [contents] is present. *)
Record YTChatResponse : Type := mkResponse {
  error : option (YTChatErrorStatus * string);
  continuationContents : option ContinuationContents;
  contents : option string;
  trackingParams : bool
}.

Record ChatResponse : Type := mkChat {
  actions : list Action;
  continuation : option TimedContinuation
}.

(** How [await this.post(...)] followed by [await res.json()] settles. *)
Inductive PostOutcome : Type :=
  | Aborted
  | Rejected (message : string)
  | Responded (r : YTChatResponse).

(** The local variables of a running [fetch]. *)
Record FetchState : Type := mkFetch {
  tokenOrOptions : FetchArg;
  topChat : bool;
  target : Target;
  retryRemaining : Z;
  requestUrl : Endpoint;
  requestBody : ContinuationParam
}.

(** What one turn of the [loop: while (true)] of [fetch] does once the
    request has settled. *)
Inductive FetchStep : Type :=
  | Return (res : ChatResponse)
  | Throw (e : JsError)
  | Retry (st : FetchState)       (* await delay(retryInterval); continue *)
  | Fallback (st : FetchState).   (* this.isLive = false; continue *)

(** Observable effects of the session code. *)
Inductive Effect : Type :=
  | Post (url : Endpoint) (body : ContinuationParam)
  | Delay (ms : Z)                (* delay(ms) *)
  | Wait (ms : Z)                 (* delay(ms, signal) *)
  | Switched.                     (* log: "switched to replay endpoint" *)

End MasterchatData.

(** ** Masterchat.fetch *)

Module Fetch.
Section Fetch.
Context `{Decoder}.

Definition retryInterval : Z := 3000.

(** [/pat/.test(s)] for a pattern without metacharacters. *)
Definition test (pat s : string) : bool :=
  match String.index 0 pat s with
  | Some _ => true
  | None => false
  end.

(** [applyNewLiveStatus(isLive)] *)
Definition applyNewLiveStatus (isLive : bool) (st : FetchState) : FetchState :=
  let continuation :=
    match tokenOrOptions st with
    | Token tok => GivenToken tok
    | Options _ =>
        if isLive then Lrc (target st) (topChat st)
        else Rtc (target st) (topChat st)
    end in
  {| tokenOrOptions := tokenOrOptions st;
     topChat := topChat st;
     target := target st;
     retryRemaining := retryRemaining st;
     requestUrl := if isLive then EP_GLC else EP_GLCR;
     requestBody := continuation |}.

Definition set_retryRemaining (n : Z) (st : FetchState) : FetchState :=
  {| tokenOrOptions := tokenOrOptions st;
     topChat := topChat st;
     target := target st;
     retryRemaining := n;
     requestUrl := requestUrl st;
     requestBody := requestBody st |}.

(** The state of [fetch] when it enters its loop. *)
Definition init (isLive : option bool) (tgt : Target) (arg : FetchArg)
  : FetchState :=
  let topChat :=
    match arg with
    | Token _ => false
    | Options o => default false o
    end in
  applyNewLiveStatus (default true isLive)
    {| tokenOrOptions := arg;
       topChat := topChat;
       target := tgt;
       retryRemaining := 3;
       requestUrl := EP_GLC;
       requestBody := Lrc tgt topChat |}.

(** The [try] block: the request settles, and a response carrying an
    [error] object is turned into an exception. *)
Definition try_block (o : PostOutcome) (st : FetchState)
  : outcome YTChatResponse * FetchState :=
  match o with
  | Aborted => (Raise FetchAborted, st)
  | Rejected m => (Raise (TransportError m), st)
  | Responded r =>
      match error r with
      | Some (status, message) =>
          match status with
          | PermissionDenied =>
              (Raise (NoPermissionError message), set_retryRemaining 0 st)
          | NotFound =>
              (Raise (UnavailableError message), set_retryRemaining 0 st)
          | Invalid =>
              (Raise (InvalidArgumentError message), set_retryRemaining 0 st)
          | Unavailable | Internal => (Raise (PlainError message), st)
          | Unrecognized => (Raise (PlainError message), st)
          end
      | None => (Ret r, st)
      end
  end.

(** [(err as any).type === "aborted"] *)
Definition has_type_aborted (e : JsError) : bool :=
  match e with
  | FetchAborted => true
  | _ => false
  end.

(** The [catch] block. *)
Definition catch_block (e : JsError) (st : FetchState) : FetchStep :=
  if has_type_aborted e then Throw AbortError
  else if 0 <? retryRemaining st
       then Retry (set_retryRemaining (retryRemaining st - 1) st)
       else Throw e.

Definition ended : ChatResponse := {| actions := []; continuation := None |}.

(** The code after the [try] statement. *)
Definition after_try (isLive : option bool) (r : YTChatResponse)
    (st : FetchState) : FetchStep * option bool :=
  match continuationContents r with
  | None =>
      match contents r with
      | Some reason =>
          if test "disabled" reason then
            match isLive with
            | None => (Fallback (applyNewLiveStatus false st), Some false)
            | Some _ => (Throw (DisabledChatError reason), isLive)
            end
          else if test "currently unavailable" reason then
            (Throw (MembersOnlyError reason), isLive)
          else (Return ended, isLive)
      | None => (Return ended, isLive)
      end
  | Some cc =>
      let newContinuation := timedContinuation cc in
      match rawActions cc with
      | None =>
          (Return {| actions := []; continuation := newContinuation |},
           isLive)
      | Some raw =>
          let raw' :=
            if negb (default true isLive) then unwrapReplayActions raw
            else raw in
          (Return {| actions := omap parseChatAction raw';
                     continuation := newContinuation |}, isLive)
      end
  end.

(** One turn of the loop, given how the request settled; returns the new
    value of [this.isLive] as well. *)
Definition turn (o : PostOutcome) (isLive : option bool) (st : FetchState)
  : FetchStep * option bool :=
  match try_block o st with
  | (Raise e, st') => (catch_block e st', isLive)
  | (Ret r, st') => after_try isLive r st'
  end.

(** A completed call of [fetch]: its result, the new [this.isLive], the
    effects in order and the request outcomes it did not consume. *)
Record Run : Type := mkRun {
  result : outcome ChatResponse;
  isLive' : option bool;
  effects : list Effect;
  rest : list PostOutcome
}.

(** The loop of [fetch] against a script of request outcomes, one per
    request; [None] when the script ends before the call does. *)
Fixpoint loop (script : list PostOutcome) (isLive : option bool)
    (st : FetchState) (eff : list Effect) : option Run :=
  match script with
  | [] => None
  | o :: script' =>
      let eff := eff ++ [Post (requestUrl st) (requestBody st)] in
      match turn o isLive st with
      | (Return res, l) => Some (mkRun (Ret res) l eff script')
      | (Throw e, l) => Some (mkRun (Raise e) l eff script')
      | (Retry st', l) => loop script' l st' (eff ++ [Delay retryInterval])
      | (Fallback st', l) => loop script' l st' (eff ++ [Switched])
      end
  end.

(** [fetch(tokenOrOptions)] on a session with the given [isLive]. *)
Definition fetch (script : list PostOutcome) (isLive : option bool)
    (tgt : Target) (arg : FetchArg) : option Run :=
  loop script isLive (init isLive tgt arg) [].

(** Counting effects of a trace. *)
Definition is_post (e : Effect) : bool :=
  match e with Post _ _ => true | _ => false end.
Definition is_delay (e : Effect) : bool :=
  match e with Delay _ => true | _ => false end.
Definition is_switch (e : Effect) : bool :=
  match e with Switched => true | _ => false end.
Definition attempts (eff : list Effect) : nat :=
  length (List.filter is_post eff).
Definition delays (eff : list Effect) : list Z :=
  omap (fun e => match e with Delay ms => Some ms | _ => None end) eff.
Definition switches (eff : list Effect) : nat :=
  length (List.filter is_switch eff).

(** The failures the specification calls transient: a transport-level
    failure, or a response with status "unavailable" or "internal". *)
Definition transient (o : PostOutcome) : bool :=
  match o with
  | Aborted => false
  | Rejected _ => true
  | Responded r =>
      match error r with
      | Some (Unavailable, _) | Some (Internal, _) => true
      | _ => false
      end
  end.

(** The error a transient failure surfaces as. *)
Definition transient_error (o : PostOutcome) : JsError :=
  match o with
  | Responded r =>
      match error r with
      | Some (_, message) => PlainError message
      | None => PlainError ""
      end
  | Rejected m => TransportError m
  | Aborted => FetchAborted
  end.

(** The statuses that are fatal at once: permission-denied, not-found,
    invalid-argument; and the error each surfaces as. *)
Definition fatal_status (status : YTChatErrorStatus) : bool :=
  match status with
  | PermissionDenied | NotFound | Invalid => true
  | _ => false
  end.

Definition fatal_error (status : YTChatErrorStatus) (message : string)
  : JsError :=
  match status with
  | PermissionDenied => NoPermissionError message
  | NotFound => UnavailableError message
  | _ => InvalidArgumentError message
  end.

(** [k] requests each followed by the backoff wait, then one more
    request. *)
Definition retry_trace (k : nat) (st : FetchState) : list Effect :=
  concat (repeat [Post (requestUrl st) (requestBody st);
                  Delay retryInterval] k)
  ++ [Post (requestUrl st) (requestBody st)].

(** A response whose text says that chat is disabled. *)
Definition says_disabled (r : YTChatResponse) : Prop :=
  error r = None /\ continuationContents r = None
  /\ exists reason, contents r = Some reason /\ test "disabled" reason = true.

End Fetch.
End Fetch.

(** ** Masterchat: iterate, listen, stop *)

Module Masterchat.
Section Masterchat.
Context `{Decoder}.

Inductive Mode : Type := live | replay.

(** [MasterchatOptions]; credentials only feed the request headers. *)
Record MasterchatOptions : Type := mkOptions { mode : option Mode }.

Record IterateChatOptions : Type := mkIterate {
  o_topChat : option bool;
  o_ignoreFirstResponse : option bool;
  o_continuation : option string
}.

Inductive Event : Type :=
  | EvData (res : ChatResponse)
  | EvActions (l : list Action)
  | EvChats (l : list Action)
  | EvEnd
  | EvError (e : JsError).

(** The variables of a running [iterate], with the promise the enclosing
    [listen] returned. *)
Record Frame : Type := mkFrame {
  promise : nat;
  signal : nat;
  ignoreFirstResponse : bool;
  treatedFirstResponse : bool
}.

(** Where a polling loop is suspended. *)
Inductive Phase : Type :=
  | AwaitPost (ctl : nat) (st : FetchState)   (* fetch: await this.post *)
  | AwaitRetry (st : FetchState)              (* fetch: await delay(retryInterval) *)
  | Yielded (res : ChatResponse) (startMs : Z) (* iterate: yield res *)
  | AwaitDelay (ms : Z) (tok : string).       (* iterate: await delay(timeoutMs, signal) *)

(** A [Masterchat] object, the polling loops started on it and what they
    did so far. [AbortController]s and promises are named by numbers;
    [abortedSignals] holds the controllers whose signal is aborted.
    [settled] records how each polling loop ended, that is the outcome of
    the promise of [makePromise(...)], under the name of the listener
    chained on it; the listener itself is that promise followed by the
    [then], [catch] and [finally] handlers of [listen]. *)
Record t : Type := mk {
  videoId : string;
  channelId : string;
  channelName : option string;
  title : option string;
  isLive : option bool;
  listener : option nat;
  listenerAbortion : nat;
  abortedSignals : gset nat;
  chatsListenerCount : nat;
  loops : list (Frame * Phase);
  fresh : nat;
  emitted : list Event;
  effects : list Effect;
  settled : list (nat * outcome unit)
}.

Record Metadata : Type := mkMetadata {
  m_videoId : string;
  m_channelId : string;
  m_channelName : option string;
  m_title : option string;
  m_isLive : option bool
}.

(** [constructor(videoId, channelId, { mode })] *)
Definition new (vid cid : string) (o : MasterchatOptions) : t :=
  {| videoId := vid; channelId := cid; channelName := None; title := None;
     isLive := match mode o with
               | Some live => Some true
               | Some replay => Some false
               | None => None
               end;
     listener := None; listenerAbortion := 0; abortedSignals := ∅;
     chatsListenerCount := 0; loops := []; fresh := 1;
     emitted := []; effects := []; settled := [] |}.

(** [get stopped()] *)
Definition stopped (s : t) : bool :=
  match listener s with None => true | Some _ => false end.

(** [get metadata()] *)
Definition metadata (s : t) : Metadata :=
  mkMetadata (videoId s) (channelId s) (channelName s) (title s) (isLive s).

(** [cvPair()] *)
Definition cvPair (s : t) : Target := mkTarget (channelId s) (videoId s).

(** Field updates. *)
Definition set_isLive (l : option bool) (s : t) : t :=
  mk (videoId s) (channelId s) (channelName s) (title s) l (listener s)
     (listenerAbortion s) (abortedSignals s) (chatsListenerCount s)
     (loops s) (fresh s) (emitted s) (effects s) (settled s).
Definition set_listener (l : option nat) (s : t) : t :=
  mk (videoId s) (channelId s) (channelName s) (title s) (isLive s) l
     (listenerAbortion s) (abortedSignals s) (chatsListenerCount s)
     (loops s) (fresh s) (emitted s) (effects s) (settled s).
Definition set_loops (ls : list (Frame * Phase)) (s : t) : t :=
  mk (videoId s) (channelId s) (channelName s) (title s) (isLive s)
     (listener s) (listenerAbortion s) (abortedSignals s)
     (chatsListenerCount s) ls (fresh s) (emitted s) (effects s) (settled s).
Definition emit (evs : list Event) (s : t) : t :=
  mk (videoId s) (channelId s) (channelName s) (title s) (isLive s)
     (listener s) (listenerAbortion s) (abortedSignals s)
     (chatsListenerCount s) (loops s) (fresh s) (emitted s ++ evs)
     (effects s) (settled s).
Definition perform (effs : list Effect) (s : t) : t :=
  mk (videoId s) (channelId s) (channelName s) (title s) (isLive s)
     (listener s) (listenerAbortion s) (abortedSignals s)
     (chatsListenerCount s) (loops s) (fresh s) (emitted s)
     (effects s ++ effs) (settled s).
Definition settle (p : nat) (r : outcome unit) (s : t) : t :=
  mk (videoId s) (channelId s) (channelName s) (title s) (isLive s)
     (listener s) (listenerAbortion s) (abortedSignals s)
     (chatsListenerCount s) (loops s) (fresh s) (emitted s)
     (effects s) (settled s ++ [(p, r)]).
(** [new AbortController()] stored in [this.listenerAbortion]. *)
Definition new_controller (s : t) : t :=
  mk (videoId s) (channelId s) (channelName s) (title s) (isLive s)
     (listener s) (fresh s) (abortedSignals s) (chatsListenerCount s)
     (loops s) (S (S (fresh s))) (emitted s) (effects s) (settled s).
(** [this.listenerAbortion.abort()] *)
Definition abort (s : t) : t :=
  mk (videoId s) (channelId s) (channelName s) (title s) (isLive s)
     (listener s) (listenerAbortion s)
     ({[ listenerAbortion s ]} ∪ abortedSignals s) (chatsListenerCount s)
     (loops s) (fresh s) (emitted s) (effects s) (settled s).
(** [mc.on("chats", ...)] *)
Definition on_chats (s : t) : t :=
  mk (videoId s) (channelId s) (channelName s) (title s) (isLive s)
     (listener s) (listenerAbortion s) (abortedSignals s)
     (S (chatsListenerCount s)) (loops s) (fresh s) (emitted s)
     (effects s) (settled s).

Definition signal_aborted (ctl : nat) (s : t) : bool :=
  bool_decide (ctl ∈ abortedSignals s).

Definition find_loop (p : nat) (s : t) : option (Frame * Phase) :=
  List.find (fun l => promise (fst l) =? p)%nat (loops s).
Definition remove_loop (p : nat) (ls : list (Frame * Phase))
  : list (Frame * Phase) :=
  List.filter (fun l => negb (promise (fst l) =? p)%nat) ls.
(** Suspend the loop of frame [f] in phase [ph]. *)
Definition suspend (f : Frame) (ph : Phase) (s : t) : t :=
  set_loops ((f, ph) :: remove_loop (promise f) (loops s)) s.

Definition treated (f : Frame) : Frame :=
  mkFrame (promise f) (signal f) (ignoreFirstResponse f) true.

(** [err instanceof AbortError] *)
Definition is_AbortError (e : JsError) : bool :=
  match e with AbortError => true | _ => false end.

(** The handlers [listen] chains on the loop's promise, run when the loop
    of frame [f] completes with [r]:
    [.then(() => emit("end"))],
    [.catch((err) => { if (err instanceof AbortError) return; emit("error", err) })],
    [.finally(() => { this.listener = null })]. *)
Definition finish (f : Frame) (r : outcome unit) (s : t) : t :=
  let evs :=
    match r with
    | Ret _ => [EvEnd]
    | Raise e => if is_AbortError e then [] else [EvError e]
    end in
  set_listener None
    (emit evs (settle (promise f) r
       (set_loops (remove_loop (promise f) (loops s)) s))).

(** [await this.post(requestUrl, requestBody)] with the signal of the
    current [this.listenerAbortion]. *)
Definition post (f : Frame) (st : FetchState) (s : t) : t :=
  suspend f (AwaitPost (listenerAbortion s) st)
    (perform [Post (requestUrl st) (requestBody st)] s).

(** [this.fetch(token)] up to its first request. *)
Definition call_fetch (f : Frame) (arg : FetchArg) (s : t) : t :=
  post f (Fetch.init (isLive s) (cvPair s) arg) s.

(** Lines 493-500 of [iterate]: the wait before the next poll, [None] when
    [delay] is not called. *)
Definition drift_wait (isLive : option bool) (timeoutMs startMs now : Z)
  : option Z :=
  if default true isLive then
    let driftMs := now - startMs in
    let timeoutMs := timeoutMs - driftMs in
    if 0 <? timeoutMs then Some timeoutMs else None
  else None.

(** [iterate] from the statement after [yield res], resumed at time
    [now]. *)
Definition after_yield (f : Frame) (res : ChatResponse) (startMs now : Z)
    (s : t) : t :=
  let f := treated f in
  match continuation res with
  | None => finish f (Ret tt) s
  | Some k =>
      match drift_wait (isLive s) (timeoutMs k) startMs now with
      | Some ms =>
          if signal_aborted (signal f) s
          then finish f (Raise AbortError) (perform [Wait ms] s)
          else suspend f (AwaitDelay ms (token k)) (perform [Wait ms] s)
      | None => call_fetch f (Token (token k)) s
      end
  end.

(** The body of the [for await] of [listen]. *)
Definition batch_events (res : ChatResponse) (s : t) : list Event :=
  [EvData res; EvActions (actions res)]
  ++ (if (0 <? chatsListenerCount s)%nat
      then [EvChats (List.filter isAddChatItemAction (actions res))]
      else []).

(** [iterate] once [fetch] returned [res] at time [now].  When the batch
    is not yielded the two readings of the clock fall in the same run of
    the loop and are taken to be equal. *)
Definition fetched (f : Frame) (res : ChatResponse) (now : Z) (s : t) : t :=
  let startMs := now in
  if negb (ignoreFirstResponse f && negb (treatedFirstResponse f))
  then suspend f (Yielded res startMs) (emit (batch_events res s) s)
  else after_yield f res startMs now s.

(** Modelled from the spec: [ytFetch] and [delay] ([./utils] is not among
    the sources).  "Cancelling during an in-flight network call must cause
    that call to fail immediately as Aborted rather than waiting for a
    response": a request whose signal is aborted settles as [Aborted]
    whatever the remote did.  The abort signal is "capable of interrupting
    an in-progress suspension": [delay(ms, signal)] rejects with an
    [AbortError] once its signal is aborted. *)
Definition settle_post (ctl : nat) (o : PostOutcome) (s : t) : PostOutcome :=
  if signal_aborted ctl s then Aborted else o.

(** The request of the loop with promise [p] settles as [o] at time
    [now]: [fetch] runs one turn of its loop. *)
Definition on_post_settled (p : nat) (o : PostOutcome) (now : Z) (s : t)
  : t :=
  match find_loop p s with
  | Some (f, AwaitPost ctl st) =>
      match Fetch.turn (settle_post ctl o s) (isLive s) st with
      | (Return res, l) => fetched f res now (set_isLive l s)
      | (Throw e, l) => finish f (Raise e) (set_isLive l s)
      | (Retry st', l) =>
          suspend f (AwaitRetry st')
            (perform [Delay Fetch.retryInterval] (set_isLive l s))
      | (Fallback st', l) => post f st' (perform [Switched] (set_isLive l s))
      end
  | _ => s
  end.

(** The timer the loop with promise [p] sleeps on fires. *)
Definition on_timer (p : nat) (s : t) : t :=
  match find_loop p s with
  | Some (f, AwaitRetry st) => post f st s
  | Some (f, AwaitDelay _ tok) => call_fetch f (Token tok) s
  | _ => s
  end.

(** The consumer of the batch the loop with promise [p] yielded asks for
    the next one at time [now]. *)
Definition on_resumed (p : nat) (now : Z) (s : t) : t :=
  match find_loop p s with
  | Some (f, Yielded res startMs) => after_yield f res startMs now s
  | _ => s
  end.

(** The suspended [delay(timeoutMs, signal)] calls whose signal is
    aborted reject. *)
Definition interrupt (s : t) : t :=
  fold_right
    (fun l acc =>
       match snd l with
       | AwaitDelay _ _ =>
           if signal_aborted (signal (fst l)) acc
           then finish (fst l) (Raise AbortError) acc
           else acc
       | _ => acc
       end)
    s (loops s).

(** [stop()] *)
Definition stop (s : t) : t :=
  match listener s with
  | None => s
  | Some _ => interrupt (emit [EvEnd] (abort s))
  end.

(** [listen(iterateOptions)]: the promise returned and the new state. *)
Definition listen (o : IterateChatOptions) (s : t) : nat * t :=
  match listener s with
  | Some p => (p, s)
  | None =>
      let p := S (fresh s) in
      let s := new_controller s in
      let f := mkFrame p (listenerAbortion s)
                 (default false (o_ignoreFirstResponse o)) false in
      if signal_aborted (signal f) s
      then (p, finish f (Raise AbortError) s)
      else
        let tok :=
          match o_continuation o with
          | Some (String a k) => Token (String a k)
          | _ => Options None
          end in
        (p, set_listener (Some p) (call_fetch f tok s))
  end.

(** What can happen to a session: calls of its methods, and the
    completions its loops wait for. *)
Inductive Input : Type :=
  | Listen (o : IterateChatOptions)
  | Stop
  | PostSettled (p : nat) (o : PostOutcome) (now : Z)
  | TimerFired (p : nat)
  | Resumed (p : nat) (now : Z).

Definition step (i : Input) (s : t) : t :=
  match i with
  | Listen o => snd (listen o s)
  | Stop => stop s
  | PostSettled p o now => on_post_settled p o now s
  | TimerFired p => on_timer p s
  | Resumed p now => on_resumed p now s
  end.

Definition run (ins : list Input) (s : t) : t :=
  fold_left (fun s i => step i s) ins s.

(** The completions of its loops only. *)
Definition is_completion (i : Input) : bool :=
  match i with
  | Listen _ | Stop => false
  | _ => true
  end.

Definition is_error (e : Event) : bool :=
  match e with EvError _ => true | _ => false end.

(** One turn of [iterate] on the clock: [fetch] is called at
    [fetchStart], returns at [fetchEnd], and the loop is resumed after
    its [yield] at [resumed]. *)
Record Timeline : Type := mkTimeline {
  fetchStart : Z;
  fetchEnd : Z;
  resumed : Z
}.

(** The wait of that turn in milliseconds, [0] when [delay] is not
    called: [startMs] is read when [fetch] has returned. *)
Definition iterate_wait (isLive : option bool) (k : TimedContinuation)
    (tl : Timeline) : Z :=
  let startMs := fetchEnd tl in
  default 0 (drift_wait isLive (timeoutMs k) startMs (resumed tl)).

(** Whether the mode is still unknown, as a number. *)
Definition unknown (l : option bool) : nat :=
  match l with None => 1 | Some _ => 0 end.

(** What a suspended loop may rely on: a pending request carries the
    signal of the current controller, and a sleeping loop was not
    cancelled. *)
Definition phase_ok (s : t) (ph : Phase) : Prop :=
  match ph with
  | AwaitPost ctl _ => ctl = listenerAbortion s
  | AwaitDelay _ _ => signal_aborted (listenerAbortion s) s = false
  | _ => True
  end.

(** The invariant of a session: controllers in use were allocated, and the
    loops are exactly the one behind the listener, if any. *)
Definition wf (s : t) : Prop :=
  (listenerAbortion s < fresh s)%nat
  /\ (forall ctl, ctl ∈ abortedSignals s -> (ctl < fresh s)%nat)
  /\ match listener s with
     | None => loops s = []
     | Some p =>
         exists f ph,
           loops s = [(f, ph)] /\ promise f = p
           /\ signal f = listenerAbortion s /\ phase_ok s ph
     end.




(** Fallbacks made so far, plus one if one can still be made. *)
Definition fallback_budget (s : t) : nat :=
  (unknown (isLive s) + Fetch.switches (effects s))%nat.

(** No error event among the events. *)
Definition no_error (evs : list Event) : Prop :=
  Forall (fun e => is_error e = false) evs.


(** The states a session can be in. *)
Definition reachable (s : t) : Prop :=
  exists vid cid o ins, s = run ins (new vid cid o).

End Masterchat.
End Masterchat.

(** ** StreamPool *)

Module StreamPool.
Section StreamPool.
Context `{Decoder}.

Inductive Event : Type :=
  | Data (data : ChatResponse) (m : Masterchat.Metadata)
  | Actions (l : list Action) (m : Masterchat.Metadata)
  | Chats (l : list Action) (m : Masterchat.Metadata)
  | End (m : Masterchat.Metadata)
  | Error (e : JsError) (m : Masterchat.Metadata).

(** A pool: its [Map] from video id to session, and the sessions it
    constructed, a session being named by its position in [heap]. *)
Record t : Type := mk {
  pool : gmap string nat;
  options : Masterchat.MasterchatOptions;
  started : bool;
  heap : list Masterchat.t;
  emitted : list Event
}.

(** [constructor(options)] *)
Definition new (o : Masterchat.MasterchatOptions) : t :=
  {| pool := ∅; options := o; started := false; heap := []; emitted := [] |}.

(** [get(videoId)] *)
Definition get (vid : string) (p : t) : option nat := pool p !! vid.

(** [has(videoId)] *)
Definition has (vid : string) (p : t) : bool :=
  bool_decide (is_Some (pool p !! vid)).

(** [streamCount()] *)
Definition streamCount (p : t) : nat := size (pool p).

(** The handlers [subscribe] registers on a session, applied to an event
    the session [mc] emits. *)
Definition handle (mc : Masterchat.t) (e : Masterchat.Event) (p : t) : t :=
  let m := Masterchat.metadata mc in
  match e with
  | Masterchat.EvData d =>
      mk (pool p) (options p) (started p) (heap p) (emitted p ++ [Data d m])
  | Masterchat.EvActions l =>
      mk (pool p) (options p) (started p) (heap p)
         (emitted p ++ [Actions l m])
  | Masterchat.EvChats l =>
      mk (pool p) (options p) (started p) (heap p) (emitted p ++ [Chats l m])
  | Masterchat.EvEnd =>
      mk (delete (Masterchat.videoId mc) (pool p)) (options p) (started p)
         (heap p) (emitted p ++ [End m])
  | Masterchat.EvError err =>
      mk (delete (Masterchat.videoId mc) (pool p)) (options p) (started p)
         (heap p) (emitted p ++ [Error err m])
  end.

(** Session [h] went from [old] to [new]: store it and run the handlers
    on the events it emitted meanwhile. *)
Definition relay (h : nat) (old new : Masterchat.t) (p : t) : t :=
  fold_left (fun p e => handle new e p)
    (drop (length (Masterchat.emitted old)) (Masterchat.emitted new))
    (mk (pool p) (options p) (started p) (<[h := new]> (heap p))
        (emitted p)).

(** Something happens to session [h]. *)
Definition deliver (h : nat) (i : Masterchat.Input) (p : t) : t :=
  match heap p !! h with
  | Some mc => relay h mc (Masterchat.step i mc) p
  | None => p
  end.

(** [subscribe(videoId, channelId, iterateOptions)]: the session returned
    and the new pool. *)
Definition subscribe (vid cid : string) (o : Masterchat.IterateChatOptions)
    (p : t) : option nat * t :=
  if has vid p then (get vid p, p)
  else
    let mc := Masterchat.on_chats (Masterchat.new vid cid (options p)) in
    let mc := snd (Masterchat.listen o mc) in
    let h := length (heap p) in
    (Some h,
     mk (<[vid := h]> (pool p)) (options p) true (heap p ++ [mc])
        (emitted p)).

(** [unsubscribe(videoId)] *)
Definition unsubscribe (vid : string) (p : t) : t :=
  match get vid p with
  | None => p
  | Some h => deliver h Masterchat.Stop p
  end.

Inductive Input : Type :=
  | Subscribe (vid cid : string) (o : Masterchat.IterateChatOptions)
  | Unsubscribe (vid : string)
  | Session (h : nat) (i : Masterchat.Input).

Definition step (i : Input) (p : t) : t :=
  match i with
  | Subscribe vid cid o => snd (subscribe vid cid o p)
  | Unsubscribe vid => unsubscribe vid p
  | Session h i => deliver h i p
  end.

Definition run (ins : list Input) (p : t) : t :=
  fold_left (fun p i => step i p) ins p.

(** The states a pool can be in. *)
Definition reachable (p : t) : Prop :=
  exists o ins, p = run ins (new o).

(** Every registered session exists and is the session of the video it is
    registered under. *)
Definition pool_ok (p : t) : Prop :=
  forall vid h,
    pool p !! vid = Some h ->
    exists mc, heap p !! h = Some mc /\ Masterchat.videoId mc = vid.

End StreamPool.
End StreamPool.

(** ** Sequences of reads *)

Module Reads.
Import ProtoBufReader.

(** A read operation of the reader. *)
Inductive ReadOp : Type :=
  | Eat (bytes : Z)
  | EatUInt32
  | EatUInt64
  | EatVariant.

(** The reader after the operation, whatever it returned or raised. *)
Definition read (op : ReadOp) (r : t) : t :=
  match op with
  | Eat bytes => snd (eat bytes r)
  | EatUInt32 => snd (eatUInt32 r)
  | EatUInt64 => snd (eatUInt64 r)
  | EatVariant => snd (eatVariant r)
  end.

Definition reads (ops : list ReadOp) (r : t) : t :=
  fold_left (fun r op => read op r) ops r.

(** A read that does not ask for a negative number of bytes. *)
Definition forward (op : ReadOp) : Prop :=
  match op with
  | Eat bytes => 0 <= bytes
  | _ => True
  end.

End Reads.

(** ** The request of a poll, by mode *)

Module Request.





End Request.

(** ** Reading the record of a session *)

Module Record.
Section Record.
Context `{Decoder}.

(** The errors of the error events, in order. *)
Definition errors (evs : list Masterchat.Event) : list JsError :=
  omap (fun e => match e with Masterchat.EvError x => Some x | _ => None end)
       evs.

(** The errors polling loops ended with, [AbortError] apart, in order. *)
Definition failures (rs : list (nat * outcome unit)) : list JsError :=
  omap (fun r =>
          match snd r with
          | Raise e => if Masterchat.is_AbortError e then None else Some e
          | Ret _ => None
          end) rs.

(** The number of end events. *)
Definition ends (evs : list Masterchat.Event) : nat :=
  length (List.filter
            (fun e => match e with Masterchat.EvEnd => true | _ => false end)
            evs).

(** From [s] to [s'] the error events emitted are the failures recorded. *)
Definition accounted (s s' : Masterchat.t) : Prop :=
  exists evs rs,
    Masterchat.emitted s' = Masterchat.emitted s ++ evs
    /\ Masterchat.settled s' = Masterchat.settled s ++ rs
    /\ errors evs = failures rs.

End Record.
End Record.

(** ** What the pool makes of the events of a session *)

Module Relay.
Section Relay.
Context `{Decoder}.

(** The pool event for an event of a session with metadata [m]. *)
Definition relayed (m : Masterchat.Metadata) (e : Masterchat.Event)
  : StreamPool.Event :=
  match e with
  | Masterchat.EvData d => StreamPool.Data d m
  | Masterchat.EvActions l => StreamPool.Actions l m
  | Masterchat.EvChats l => StreamPool.Chats l m
  | Masterchat.EvEnd => StreamPool.End m
  | Masterchat.EvError err => StreamPool.Error err m
  end.

(** The events that end a subscription. *)
Definition terminal (e : Masterchat.Event) : bool :=
  match e with
  | Masterchat.EvEnd | Masterchat.EvError _ => true
  | _ => false
  end.

End Relay.
End Relay.

(** ** Masterchat.postWithRetry *)

Module PostWithRetry.

(** What the [catch] clause receives: an [Error] instance, with its [name],
    or any other thrown value. *)
Inductive Thrown : Type :=
  | ErrorObject (name message : string)
  | OtherValue (v : string).

(** How [await this.post(input, body)] followed by [await res.json()]
    settles. *)
Inductive Settled (T : Type) : Type :=
  | Resolved (json : T)
  | Threw (err : Thrown).
Arguments Resolved {T} json.
Arguments Threw {T} err.

(** [RetryOptions], with whole numbers for [retry] and [retryInterval]. *)
Record RetryOptions : Type := mkRetry {
  retry : option Z;
  retryInterval : option Z
}.

(** The value [postWithRetry] throws: the caught value, and the [errors]
    property if the code has set it. *)
Record Failure : Type := mkFailure {
  err : Thrown;
  errors : option (list Thrown)
}.

(** A call of [postWithRetry]: what it returned or threw, the number of
    [this.post] calls, the [delay(retryInterval)] calls in order, and the
    part of the script it did not consume. *)
Record Run (T : Type) : Type := mkRun {
  result : T + Failure;
  posts : nat;
  waits : list Z;
  rest : list (Settled T)
}.
Arguments mkRun {T} result posts waits rest.
Arguments result {T} r.
Arguments posts {T} r.
Arguments waits {T} r.
Arguments rest {T} r.

(** [options?.retry ?? 0] *)
Definition initial_remaining (options : option RetryOptions) : Z :=
  match options with
  | Some o => match retry o with Some n => n | None => 0 end
  | None => 0
  end.

(** [options?.retryInterval ?? 1000] *)
Definition interval_of (options : option RetryOptions) : Z :=
  match options with
  | Some o => match retryInterval o with Some ms => ms | None => 1000 end
  | None => 1000
  end.

(** The [while (true)] loop, driven by the outcomes of the successive
    requests; [None] when the script ends before the loop does. *)
Fixpoint loop {T : Type} (script : list (Settled T)) (interval remaining : Z)
    (errs : list Thrown) (n : nat) (ws : list Z) : option (Run T) :=
  match script with
  | [] => None
  | Resolved json :: script' => Some (mkRun (inl json) (S n) ws script')
  | Threw e :: script' =>
      match e with
      | ErrorObject name _ =>
          if String.eqb name "AbortError"
          then Some (mkRun (inr (mkFailure e None)) (S n) ws script')
          else
            let errs := errs ++ [e] in
            if 0 <? remaining
            then loop script' interval (remaining - 1) errs (S n)
                   (ws ++ [interval])
            else Some (mkRun (inr (mkFailure e (Some errs))) (S n) ws
                         script')
      | OtherValue _ =>
          Some (mkRun (inr (mkFailure e None)) (S n) ws script')
      end
  end.

Definition postWithRetry {T : Type} (script : list (Settled T))
    (options : option RetryOptions) : option (Run T) :=
  loop script (interval_of options) (initial_remaining options) [] 0%nat [].

(** The thrown values the loop retries on: [Error] instances not named
    [AbortError]. *)
Definition retryable (e : Thrown) : bool :=
  match e with
  | ErrorObject name _ => negb (String.eqb name "AbortError")
  | OtherValue _ => false
  end.

(** The number of retries the options allow. *)
Definition budget (options : option RetryOptions) : nat :=
  Z.to_nat (initial_remaining options).

(** The options [getActionCatalog] passes. *)
Definition catalog_options : option RetryOptions :=
  Some (mkRetry (Some 2) None).

End PostWithRetry.

(** A decoder to run the definitions on: actions are numbers, the even ones
    are chat items, and an odd raw entry is declined. *)
#[local] Instance nat_decoder : Decoder := {|
  YTAction := nat;
  Action := nat;
  parseChatAction := fun n => if Nat.even n then Some n else None;
  unwrapReplayActions := fun l => l;
  isAddChatItemAction := Nat.even
|}.

(** * Properties *)

(** ** Bytes and buffers *)

Lemma u8_range (b : byte) : 0 <= u8 b < 256.
Proof.
  unfold u8. pose proof (Byte.to_N_bounded b) as Hb. lia.
Qed.

Lemma u8_byte_of_Z (z : Z) : u8 (TokenCodec.byte_of_Z z) = z mod 256.
Proof.
  unfold TokenCodec.byte_of_Z, u8.
  pose proof (Z.mod_pos_bound z 256 ltac:(lia)) as Hm.
  destruct (Byte.of_N (Z.to_N (z mod 256))) as [b|] eqn:E.
  - apply Byte.to_of_N in E. rewrite E. lia.
  - apply Byte.of_N_None_iff in E. lia.
Qed.

Lemma buf_at_middle (pre : list byte) (x : byte) (post : list byte) :
  buf_at (pre ++ x :: post) (Z.of_nat (length pre)) = Some x.
Proof.
  unfold buf_at.
  destruct (Z.ltb_spec (Z.of_nat (length pre)) 0) as [Hneg|_]; [lia|].
  rewrite Nat2Z.id, nth_error_app2 by lia.
  now rewrite Nat.sub_diag.
Qed.

Lemma buf_at_outside (bs : list byte) (i : Z) :
  i < 0 \/ Z.of_nat (length bs) <= i -> buf_at bs i = None.
Proof.
  intros Hi. unfold buf_at.
  destruct (Z.ltb_spec i 0) as [|Hpos]; [reflexivity|].
  apply nth_error_None. lia.
Qed.

Lemma slice_middle (pre bs post : list byte) :
  slice (pre ++ bs ++ post) (Z.of_nat (length pre))
        (Z.of_nat (length pre) + Z.of_nat (length bs)) = bs.
Proof.
  unfold slice, clamp_index.
  rewrite !length_app.
  destruct (Z.ltb_spec (Z.of_nat (length pre)) 0); [lia|].
  destruct (Z.ltb_spec (Z.of_nat (length pre) + Z.of_nat (length bs)) 0);
    [lia|].
  rewrite !Z.min_l by lia.
  replace (Z.of_nat (length pre) + Z.of_nat (length bs)
           - Z.of_nat (length pre)) with (Z.of_nat (length bs)) by lia.
  rewrite !Nat2Z.id.
  now rewrite drop_app_length, take_app_length.
Qed.


(** ** Varints *)

Import ProtoBufReader TokenCodec.

Lemma seven_bits_byte (b : byte) :
  u8 b < 128 ->
  Z.land (u8 b) 128 = 0
  /\ Z.land (u8 b) 127 = u8 b
  /\ (Z.lor (u8 b) 128) mod 256 = Z.lor (u8 b) 128
  /\ Z.land (Z.lor (u8 b) 128) 127 = u8 b
  /\ Z.land (Z.lor (u8 b) 128) 128 = 128.
Proof.
  destruct b; vm_compute; intros Hlt;
    first [discriminate Hlt | repeat split].
Qed.

Lemma seven_bits (x : Z) :
  0 <= x < 128 ->
  Z.land x 128 = 0
  /\ Z.land x 127 = x
  /\ (Z.lor x 128) mod 256 = Z.lor x 128
  /\ Z.land (Z.lor x 128) 127 = x
  /\ Z.land (Z.lor x 128) 128 = 128.
Proof.
  intros Hx.
  assert (Hu : u8 (byte_of_Z x) = x)
    by (rewrite u8_byte_of_Z; apply Z.mod_small; lia).
  rewrite <- Hu. apply seven_bits_byte. lia.
Qed.

Lemma land_127_range (n : Z) : 0 <= Z.land n 127 < 128.
Proof.
  change 127 with (Z.ones 7). rewrite Z.land_ones by lia.
  apply Z.mod_pos_bound. lia.
Qed.

(** The value splits into its low seven bits and the rest. *)
Lemma split_seven (n : Z) :
  Z.lor (Z.land n 127) (Z.shiftl (Z.shiftr n 7) 7) = n.
Proof.
  apply Z.bits_inj'. intros i Hi.
  rewrite Z.lor_spec, Z.land_spec.
  change 127 with (Z.ones 7). rewrite Z.testbit_ones_nonneg by lia.
  rewrite Z.shiftl_spec by lia.
  destruct (Z.ltb_spec i 7) as [Hlt|Hge].
  - rewrite (Z.testbit_neg_r _ (i - 7)) by lia.
    now rewrite andb_true_r, orb_false_r.
  - rewrite Z.shiftr_spec by lia.
    rewrite andb_false_r. simpl. f_equal. lia.
Qed.

Lemma reduce_from_shift (bs : list byte) :
  forall i r, 0 <= i ->
    reduce_from i bs r = Z.lor r (Z.shiftl (reduce_from 0 bs 0) (i * 7)).
Proof.
  induction bs as [|b rest IH]; intros i r Hi; simpl.
  - now rewrite Z.shiftl_0_l, Z.lor_0_r.
  - rewrite (IH (i + 1)) by lia. rewrite (IH 1) by lia.
    rewrite Z.shiftl_0_r.
    rewrite Z.shiftl_lor, Z.shiftl_shiftl by lia.
    rewrite <- Z.lor_assoc. do 3 f_equal. lia.
Qed.

Lemma parseVariant_cons (b : byte) (rest : list byte) :
  parseVariant (b :: rest)
  = Z.lor (Z.land (u8 b) 127) (Z.shiftl (parseVariant rest) 7).
Proof.
  unfold parseVariant. simpl.
  rewrite reduce_from_shift by lia.
  now rewrite Z.shiftl_0_r.
Qed.

(** The encoder needs one turn per seven bits. *)
Lemma parseVariant_encode_fuel (fuel : nat) :
  forall n, 0 <= n < 2 ^ (7 * (Z.of_nat fuel + 1)) ->
    parseVariant (encode_varint_fuel fuel n) = n.
Proof.
  induction fuel as [|f IH]; intros n Hn.
  - change (2 ^ (7 * (Z.of_nat 0 + 1))) with 128 in Hn. simpl.
    rewrite parseVariant_cons. unfold parseVariant. simpl.
    rewrite Z.lor_0_r, u8_byte_of_Z, Z.mod_small by lia.
    now apply seven_bits.
  - simpl encode_varint_fuel.
    destruct (Z.ltb_spec n 128) as [Hlt|Hge].
    + rewrite parseVariant_cons. unfold parseVariant. simpl.
      rewrite Z.lor_0_r, u8_byte_of_Z, Z.mod_small by lia.
      now apply seven_bits.
    + rewrite parseVariant_cons, u8_byte_of_Z.
      destruct (seven_bits _ (land_127_range n)) as (_ & _ & -> & -> & _).
      rewrite IH; [apply split_seven|].
      rewrite Z.shiftr_div_pow2 by lia.
      split; [apply Z.div_pos; lia|].
      apply Z.div_lt_upper_bound; [lia|].
      rewrite <- Z.pow_add_r by lia.
      replace (7 + 7 * (Z.of_nat f + 1)) with (7 * (Z.of_nat (S f) + 1))
        by lia.
      lia.
Qed.

Lemma log2_fuel (n : Z) :
  0 <= n -> 0 <= n < 2 ^ (7 * (Z.of_nat (Z.to_nat (Z.log2 n)) + 1)).
Proof.
  intros Hn. split; [assumption|].
  rewrite Z2Nat.id by apply Z.log2_nonneg.
  destruct (Z.eq_dec n 0) as [->|Hnz]; [reflexivity|].
  pose proof (Z.log2_spec n ltac:(lia)) as [_ Hlt].
  eapply Z.lt_le_trans; [exact Hlt|].
  apply Z.pow_le_mono_r; [lia|].
  pose proof (Z.log2_nonneg n). lia.
Qed.

Lemma parseVariant_encode (n : Z) :
  0 <= n -> parseVariant (encode_varint n) = n.
Proof.
  intros Hn. apply parseVariant_encode_fuel. now apply log2_fuel.
Qed.

Lemma continues_low (x : Z) : 0 <= x < 128 -> continues (byte_of_Z x) = false.
Proof.
  intros Hx. unfold continues.
  rewrite u8_byte_of_Z, Z.mod_small by lia.
  destruct (seven_bits x Hx) as (-> & _). reflexivity.
Qed.

Lemma continues_high (x : Z) :
  0 <= x < 128 -> continues (byte_of_Z (Z.lor x 128)) = true.
Proof.
  intros Hx. unfold continues. rewrite u8_byte_of_Z.
  destruct (seven_bits x Hx) as (_ & _ & -> & _ & ->). reflexivity.
Qed.

(** What the encoder writes is a well-formed varint. *)
Lemma encode_varint_fuel_shape (fuel : nat) :
  forall n, 0 <= n < 2 ^ (7 * (Z.of_nat fuel + 1)) ->
    is_varint (encode_varint_fuel fuel n).
Proof.
  induction fuel as [|f IH]; intros n Hn.
  - change (2 ^ (7 * (Z.of_nat 0 + 1))) with 128 in Hn.
    exists [], (byte_of_Z n). simpl.
    repeat split; [constructor | now apply continues_low].
  - simpl encode_varint_fuel.
    destruct (Z.ltb_spec n 128) as [Hlt|Hge].
    + exists [], (byte_of_Z n).
      repeat split; [constructor | apply continues_low; lia].
    + destruct (IH (Z.shiftr n 7)) as (init & last & Heq & Hinit & Hlast).
      { rewrite Z.shiftr_div_pow2 by lia.
        split; [apply Z.div_pos; lia|].
        apply Z.div_lt_upper_bound; [lia|].
        rewrite <- Z.pow_add_r by lia.
        replace (7 + 7 * (Z.of_nat f + 1)) with (7 * (Z.of_nat (S f) + 1))
          by lia.
        lia. }
      exists (byte_of_Z (Z.lor (Z.land n 127) 128) :: init), last.
      rewrite Heq. repeat split; [|assumption].
      constructor; [|assumption].
      apply continues_high, land_127_range.
Qed.

Lemma encode_varint_shape (n : Z) : 0 <= n -> is_varint (encode_varint n).
Proof.
  intros Hn. apply encode_varint_fuel_shape. now apply log2_fuel.
Qed.

Lemma land_at_middle (pre : list byte) (x : byte) (post : list byte) (m : Z) :
  land_at (pre ++ x :: post) (Z.of_nat (length pre)) m = Z.land (u8 x) m.
Proof. unfold land_at. now rewrite buf_at_middle. Qed.

Lemma land_at_outside (bs : list byte) (i m : Z) :
  i < 0 \/ Z.of_nat (length bs) <= i -> land_at bs i m = 0.
Proof. intros Hi. unfold land_at. now rewrite buf_at_outside. Qed.

(** The loop of [eatVariant] stops on the last byte of a well-formed
    varint. *)
Lemma skip_continuation_varint (init : list byte) :
  forall (pre : list byte) (last : byte) (post : list byte) (fuel : nat),
    Forall (fun b => continues b = true) init ->
    continues last = false ->
    (length init < fuel)%nat ->
    skip_continuation fuel (pre ++ init ++ last :: post)
      (Z.of_nat (length pre))
    = Z.of_nat (length pre) + Z.of_nat (length init).
Proof.
  induction init as [|b init IH]; intros pre last post fuel Hinit Hlast Hf.
  - destruct fuel as [|f]; [simpl in Hf; lia|].
    simpl. rewrite land_at_middle.
    unfold continues in Hlast. apply negb_false_iff in Hlast.
    rewrite Hlast. lia.
  - destruct fuel as [|f]; [simpl in Hf; lia|].
    inversion Hinit as [|? ? Hb Hrest]; subst.
    cbn [skip_continuation app].
    rewrite land_at_middle.
    unfold continues in Hb. apply negb_true_iff in Hb. rewrite Hb.
    replace (pre ++ b :: init ++ last :: post)
      with ((pre ++ [b]) ++ init ++ last :: post)
      by now rewrite <- app_assoc.
    replace (Z.of_nat (length pre) + 1) with (Z.of_nat (length (pre ++ [b])))
      by (rewrite length_app; simpl; lia).
    rewrite IH; [|assumption..|simpl in Hf; lia].
    rewrite length_app. simpl. lia.
Qed.


(** The loop of [eatVariant] always exits by its own test: the fuel given
    by [eatVariant] is never used up. *)
Lemma skip_continuation_exits_gen (bs : list byte) (fuel : nat) :
  forall cur,
    Z.of_nat (length bs) - cur < Z.of_nat fuel ->
    land_at bs (skip_continuation fuel bs cur) 128 = 0.
Proof.
  induction fuel as [|f IH]; intros cur Hf; simpl.
  - apply land_at_outside. lia.
  - destruct (Z.eqb_spec (land_at bs cur 128) 0) as [Hz|Hnz]; [assumption|].
    apply IH.
    destruct (Z.lt_ge_cases cur (Z.of_nat (length bs))); [lia|].
    exfalso. apply Hnz. apply land_at_outside. lia.
Qed.

Lemma skip_continuation_exits (bs : list byte) (cur : Z) :
  land_at bs (skip_continuation (S (length bs)) bs cur) 128 = 0.
Proof.
  destruct (Z.lt_ge_cases cur 0) as [Hneg|Hpos].
  - simpl. rewrite (land_at_outside bs cur) by lia. simpl.
    apply land_at_outside. lia.
  - apply skip_continuation_exits_gen. lia.
Qed.

Lemma isEnded_false (r : t) :
  c r <> Z.of_nat (length (buf r)) -> isEnded r = false.
Proof. intros Hc. unfold isEnded. now apply Z.eqb_neq. Qed.

(** [eatVariant] on a well-formed varint inside a buffer. *)
Lemma eatVariant_varint (pre bs post : list byte) (s0 : Z) :
  is_varint bs ->
  eatVariant (mk (pre ++ bs ++ post) (Z.of_nat (length pre)) s0)
  = (Some (parseVariant bs),
     mk (pre ++ bs ++ post)
        (Z.of_nat (length pre) + Z.of_nat (length bs)) s0).
Proof.
  intros (init & last & -> & Hinit & Hlast).
  assert (Heq : pre ++ (init ++ [last]) ++ post
                = pre ++ init ++ last :: post)
    by (now rewrite <- !app_assoc).
  unfold eatVariant.
  rewrite isEnded_false
    by (simpl; rewrite !length_app; simpl; lia).
  cbn [buf c]. rewrite Heq.
  rewrite skip_continuation_varint;
    [|assumption..|rewrite !length_app; simpl; lia].
  rewrite <- Heq.
  replace (Z.of_nat (length pre) + Z.of_nat (length init) + 1)
    with (Z.of_nat (length pre) + Z.of_nat (length (init ++ [last])))
    by (rewrite length_app; simpl; lia).
  rewrite slice_middle. reflexivity.
Qed.

Lemma lor_low_seven (x v : Z) :
  Z.lor (Z.land x 127) (Z.shiftl v 7) = x mod 128 + 128 * v.
Proof.
  rewrite <- Z.lxor_lor, <- Z.add_nocarry_lxor.
  - change 127 with (Z.ones 7). rewrite Z.land_ones, Z.shiftl_mul_pow2 by lia.
    change (2 ^ 7) with 128. lia.
  - apply Z.bits_inj'. intros i Hi.
    rewrite !Z.land_spec, Z.bits_0.
    change 127 with (Z.ones 7). rewrite Z.testbit_ones_nonneg by lia.
    rewrite Z.shiftl_spec by lia.
    destruct (Z.ltb_spec i 7) as [Hlt|Hge].
    + rewrite (Z.testbit_neg_r _ (i - 7)) by lia. now rewrite andb_false_r.
    + now rewrite andb_false_r.
  - apply Z.bits_inj'. intros i Hi.
    rewrite !Z.land_spec, Z.bits_0.
    change 127 with (Z.ones 7). rewrite Z.testbit_ones_nonneg by lia.
    rewrite Z.shiftl_spec by lia.
    destruct (Z.ltb_spec i 7) as [Hlt|Hge].
    + rewrite (Z.testbit_neg_r _ (i - 7)) by lia. now rewrite andb_false_r.
    + now rewrite andb_false_r.
Qed.

(** [parseVariant] computes the value of the varint. *)
Lemma parseVariant_value (bs : list byte) :
  parseVariant bs = varint_value bs.
Proof.
  induction bs as [|b rest IH]; [reflexivity|].
  rewrite parseVariant_cons, lor_low_seven, IH. reflexivity.
Qed.

(** C6: a varint (low seven bits per byte, least-significant group first,
    high bit as continuation flag) is decoded to exactly the integer it
    stands for, wherever it lies in the buffer; the encoding of a
    non-negative integer [n] is such a varint and is decoded to [n], in
    particular at the seven-bit boundaries 0, 127, 128, 16383, 16384 and for
    values of 64 bits. *)
Theorem varint_decodes_exactly (n : Z) (pre post : list byte) (s0 : Z) :
  0 <= n ->
  (forall bs, is_varint bs ->
     eatVariant (mk (pre ++ bs ++ post) (Z.of_nat (length pre)) s0)
     = (Some (varint_value bs),
        mk (pre ++ bs ++ post)
           (Z.of_nat (length pre) + Z.of_nat (length bs)) s0))
  /\ is_varint (encode_varint n)
  /\ varint_value (encode_varint n) = n
  /\ parseVariant (encode_varint n) = n
  /\ eatVariant
       (mk (pre ++ encode_varint n ++ post) (Z.of_nat (length pre)) s0)
     = (Some n,
        mk (pre ++ encode_varint n ++ post)
           (Z.of_nat (length pre) + Z.of_nat (length (encode_varint n))) s0)
  /\ map (fun v => fst (eatVariant (new (encode_varint v))))
       [0; 127; 128; 16383; 16384; 2 ^ 63; 2 ^ 64 - 1]
     = map Some [0; 127; 128; 16383; 16384; 2 ^ 63; 2 ^ 64 - 1].
Proof.
  intros Hn.
  assert (Hgen : forall bs, is_varint bs ->
     eatVariant (mk (pre ++ bs ++ post) (Z.of_nat (length pre)) s0)
     = (Some (varint_value bs),
        mk (pre ++ bs ++ post)
           (Z.of_nat (length pre) + Z.of_nat (length bs)) s0)).
  { intros bs Hbs. rewrite eatVariant_varint by assumption.
    now rewrite parseVariant_value. }
  pose proof (encode_varint_shape n Hn) as Hshape.
  pose proof (parseVariant_encode n Hn) as Hparse.
  split; [exact Hgen|].
  split; [exact Hshape|].
  split; [now rewrite <- parseVariant_value|].
  split; [exact Hparse|].
  split.
  - rewrite Hgen by assumption.
    now rewrite <- parseVariant_value, Hparse.
  - vm_compute. reflexivity.
Qed.

Lemma varint_decodes_exactly_witness :
  0 <= 300
  /\ eatVariant (mk ([x08] ++ encode_varint 300 ++ [xff]) 1 0)
     = (Some 300, mk ([x08] ++ encode_varint 300 ++ [xff]) 3 0).
Proof.
  split; [lia|].
  exact (proj1 (proj2 (proj2 (proj2 (proj2
           (varint_decodes_exactly 300 [x08] [xff] 0 ltac:(lia))))))).
Defined.

(** ** Reading at and past the end of the buffer *)

(** C7, as stated, fails: a read that starts before the end of the buffer
    and reaches past it is neither null nor a no-op.  On a two-byte buffer
    [eat(4)] returns the two bytes and leaves the cursor at 4, beyond the
    end, after which the reader never reports the end again; [eatUInt32] and
    [eatUInt64] raise a [RangeError]; [eatVariant] on a cut varint returns a
    number. *)
Lemma read_past_end_counterexample :
  let r := new [x01; x02] in
  remainingBytes r < 4
  /\ eat 4 r <> (None, r)
  /\ eat 4 r = (Some [x01; x02], mk [x01; x02] 4 0)
  /\ isEnded (snd (eat 4 r)) = false
  /\ eat 1 (snd (eat 4 r)) = (Some [], mk [x01; x02] 5 0)
  /\ eatUInt32 r = (Raise RangeError, r)
  /\ eatUInt64 r = (Raise RangeError, r)
  /\ eatVariant (new [x80]) = (Some 0, mk [x80] 2 0).
Proof.
  vm_compute. repeat split; discriminate.
Qed.

(** C7, amended: when the cursor is exactly at the end of the buffer, every
    read operation returns null and leaves the reader as it was. *)
Theorem read_at_end_is_null (r : t) (n : Z) :
  isEnded r = true ->
  eat n r = (None, r)
  /\ eatUInt32 r = (Ret None, r)
  /\ eatUInt64 r = (Ret None, r)
  /\ eatVariant r = (None, r).
Proof.
  intros Hend. unfold eat, eatUInt32, eatUInt64, eatVariant.
  rewrite Hend. repeat split.
Qed.

Lemma read_at_end_is_null_witness :
  isEnded (mk [x08; x01] 2 0) = true
  /\ eat 3 (mk [x08; x01] 2 0) = (None, mk [x08; x01] 2 0)
  /\ eatVariant (mk [x08; x01] 2 0) = (None, mk [x08; x01] 2 0).
Proof.
  split; [reflexivity|].
  pose proof (read_at_end_is_null (mk [x08; x01] 2 0) 3 eq_refl)
    as (He & _ & _ & Hv).
  exact (conj He Hv).
Defined.




(** ** Token codec: decode after encode *)

Lemma length_le_bytes (w : nat) : forall v, length (le_bytes w v) = w.
Proof. induction w as [|w IH]; intros v; simpl; [|rewrite IH]; reflexivity. Qed.

Lemma le_value_le_bytes (w : nat) :
  forall v, 0 <= v < 256 ^ Z.of_nat w -> le_value (le_bytes w v) = v.
Proof.
  induction w as [|w IH]; intros v Hv.
  - simpl in *. lia.
  - cbn [le_bytes le_value]. rewrite u8_byte_of_Z, IH.
    + pose proof (Z.div_mod v 256 ltac:(lia)). lia.
    + rewrite Nat2Z.inj_succ, Z.pow_succ_r in Hv by lia.
      split; [apply Z.div_pos; lia|].
      apply Z.div_lt_upper_bound; lia.
Qed.

Lemma readUIntLE_at (w : nat) (b pre post : list byte) (cur v : Z) :
  b = pre ++ le_bytes w v ++ post ->
  cur = Z.of_nat (length pre) ->
  0 <= v < 256 ^ Z.of_nat w ->
  readUIntLE (Z.of_nat w) b cur = Ret v.
Proof.
  intros -> -> Hv. unfold readUIntLE.
  destruct (Z.ltb_spec (Z.of_nat (length pre)) 0) as [|_]; [lia|].
  rewrite !length_app, length_le_bytes.
  destruct (Z.ltb_spec
              (Z.of_nat (length pre + (w + length post)))
              (Z.of_nat (length pre) + Z.of_nat w)) as [|_]; [lia|].
  simpl. rewrite !Nat2Z.id, drop_app_length.
  rewrite <- (length_le_bytes w v) at 1. rewrite take_app_length.
  now rewrite le_value_le_bytes.
Qed.

Lemma eatVariant_at (b pre bs post : list byte) (cur s0 : Z) :
  b = pre ++ bs ++ post ->
  cur = Z.of_nat (length pre) ->
  is_varint bs ->
  eatVariant (mk b cur s0)
  = (Some (parseVariant bs), mk b (cur + Z.of_nat (length bs)) s0).
Proof. intros -> -> Hbs. now apply eatVariant_varint. Qed.

Lemma is_varint_nonempty (bs : list byte) :
  is_varint bs -> (0 < length bs)%nat.
Proof. intros (init & last & -> & _). rewrite length_app. simpl. lia. Qed.

Lemma eatUInt32_at (b pre post : list byte) (cur s0 v : Z) :
  b = pre ++ le_bytes 4 v ++ post ->
  cur = Z.of_nat (length pre) ->
  0 <= v < 2 ^ 32 ->
  eatUInt32 (mk b cur s0) = (Ret (Some v), mk b (cur + 4) s0).
Proof.
  intros Hb Hc Hv. unfold eatUInt32.
  rewrite isEnded_false
    by (subst; simpl; rewrite !length_app; simpl; lia).
  cbn [buf c]. change 4 with (Z.of_nat 4) at 1.
  erewrite readUIntLE_at; [reflexivity|eassumption|assumption|].
  change (256 ^ Z.of_nat 4) with (2 ^ 32). exact Hv.
Qed.

Lemma eatUInt64_at (b pre post : list byte) (cur s0 v : Z) :
  b = pre ++ le_bytes 8 v ++ post ->
  cur = Z.of_nat (length pre) ->
  0 <= v < 2 ^ 64 ->
  eatUInt64 (mk b cur s0) = (Ret (Some v), mk b (cur + 8) s0).
Proof.
  intros Hb Hc Hv. unfold eatUInt64.
  rewrite isEnded_false
    by (subst; simpl; rewrite !length_app; simpl; lia).
  cbn [buf c]. change 8 with (Z.of_nat 8) at 1.
  erewrite readUIntLE_at; [reflexivity|eassumption|assumption|].
  change (256 ^ Z.of_nat 8) with (2 ^ 64). exact Hv.
Qed.

(** [splitHeader] inverts the header of a field. *)
Lemma splitHeader_header (n wt : Z) :
  0 <= wt < 8 ->
  splitHeader (Z.lor (Z.shiftl n 3) wt) = (n, wt).
Proof.
  intros Hwt. unfold splitHeader. f_equal.
  - rewrite Z.shiftr_lor, Z.shiftr_shiftl_l by lia.
    rewrite Z.sub_diag, Z.shiftl_0_r.
    rewrite (Z.shiftr_div_pow2 wt) by lia.
    rewrite Z.div_small by (simpl; lia). apply Z.lor_0_r.
  - rewrite Z.land_lor_distr_l.
    change 7 with (Z.ones 3). rewrite !Z.land_ones by lia.
    rewrite Z.shiftl_mul_pow2, Z.mod_mul by lia.
    rewrite Z.mod_small by (simpl; lia). reflexivity.
Qed.

Lemma wire_type_range (p : payload) : 0 <= wire_type p < 8.
Proof. destruct p; simpl; lia. Qed.

Lemma header_nonneg (f : field) :
  valid_field f -> 0 <= Z.lor (Z.shiftl (number f) 3) (wire_type (value f)).
Proof.
  intros [Hn _]. apply Z.lor_nonneg. split.
  - now apply Z.shiftl_nonneg.
  - apply wire_type_range.
Qed.

(** Reading back the payload of a field. *)
Lemma decode_payload_at (p : payload) (b pre post : list byte) (cur s0 : Z) :
  b = pre ++ encode_payload p ++ post ->
  cur = Z.of_nat (length pre) ->
  valid_payload p ->
  decode_payload (wire_type p) (mk b cur s0)
  = (Ret p, mk b (cur + Z.of_nat (length (encode_payload p))) s0).
Proof.
  intros Hb Hc Hp.
  destruct p as [v|v|v];
    cbn [encode_payload wire_type valid_payload] in *;
    unfold decode_payload; simpl Z.eqb; cbv iota.
  - erewrite eatVariant_at;
      [|eassumption|assumption|now apply encode_varint_shape].
    now rewrite parseVariant_encode.
  - erewrite eatUInt64_at; [|eassumption|assumption|assumption].
    reflexivity.
  - erewrite eatUInt32_at; [|eassumption|assumption|assumption].
    reflexivity.
Qed.

Lemma decode_fields_encode (fs : list field) :
  forall (b pre : list byte) (cur s0 : Z) (fuel : nat),
    b = pre ++ encode fs ->
    cur = Z.of_nat (length pre) ->
    Forall valid_field fs ->
    (length (encode fs) <= fuel)%nat ->
    decode_fields fuel (mk b cur s0) = Ret fs.
Proof.
  induction fs as [|f fs IH]; intros b pre cur s0 fuel Hb Hc Hfs Hfuel.
  - assert (Hend : eatVariant (mk b cur s0) = (None, mk b cur s0)).
    { unfold eatVariant, isEnded. cbn [buf c]. subst.
      simpl. rewrite app_nil_r, Z.eqb_refl. reflexivity. }
    destruct fuel; simpl; now rewrite Hend.
  - apply Forall_cons in Hfs as [Hf Hrest].
    pose proof (header_nonneg f Hf) as Hh.
    pose proof (encode_varint_shape _ Hh) as Hshape.
    pose proof (is_varint_nonempty _ Hshape) as Hpos.
    change (encode (f :: fs)) with (encode_field f ++ encode fs) in *.
    unfold encode_field in *.
    destruct fuel as [|fuel]; [rewrite !length_app in Hfuel; lia|].
    cbn [decode_fields].
    set (hdr := encode_varint
                  (Z.lor (Z.shiftl (number f) 3) (wire_type (value f)))) in *.
    set (pl := encode_payload (value f)) in *.
    assert (Hb1 : b = pre ++ hdr ++ pl ++ encode fs)
      by (rewrite Hb, <- app_assoc; reflexivity).
    assert (Hb2 : b = (pre ++ hdr) ++ pl ++ encode fs)
      by (rewrite Hb1, <- app_assoc; reflexivity).
    assert (Hb3 : b = (pre ++ hdr ++ pl) ++ encode fs)
      by (rewrite Hb1, <- !app_assoc; reflexivity).
    rewrite (eatVariant_at b pre hdr (pl ++ encode fs) cur s0 Hb1 Hc Hshape).
    subst hdr. rewrite parseVariant_encode by assumption.
    set (hdr := encode_varint
                  (Z.lor (Z.shiftl (number f) 3) (wire_type (value f)))) in *.
    rewrite splitHeader_header by apply wire_type_range.
    destruct Hf as [Hn Hp].
    rewrite (decode_payload_at (value f) b (pre ++ hdr) (encode fs)
               (cur + Z.of_nat (length hdr)) s0 Hb2
               ltac:(rewrite length_app; lia) Hp).
    fold pl.
    assert (Hc3 : cur + Z.of_nat (length hdr) + Z.of_nat (length pl)
                  = Z.of_nat (length (pre ++ hdr ++ pl)))
      by (rewrite !length_app; lia).
    assert (Hfuel3 : (length (encode fs) <= fuel)%nat)
      by (rewrite !length_app in Hfuel; lia).
    rewrite (IH b (pre ++ hdr ++ pl) _ s0 fuel Hb3 Hc3 Hrest Hfuel3).
    destruct f; reflexivity.
Qed.

(** C5: the token codec round-trips.  Decoding the encoding of a valid field
    set gives back the field set; the fields are handled by wire type only,
    whatever their number, so decoding a token and encoding the result gives
    back the token byte for byte; and the bytes [0x08, 0x01] decode to field
    number 1 of wire type 0 with varint value 1, which encodes to the same
    two bytes. *)
Theorem token_codec_round_trip (fs : list field) :
  Forall valid_field fs ->
  decode (encode fs) = Ret fs
  /\ (forall fs', decode (encode fs) = Ret fs' -> encode fs' = encode fs)
  /\ eatVariant (new [x08; x01]) = (Some 8, mk [x08; x01] 1 0)
  /\ splitHeader 8 = (1, 0)
  /\ eatVariant (mk [x08; x01] 1 0) = (Some 1, mk [x08; x01] 2 0)
  /\ decode [x08; x01] = Ret [mkField 1 (Varint 1)]
  /\ encode [mkField 1 (Varint 1)] = [x08; x01].
Proof.
  intros Hfs.
  assert (Hrt : decode (encode fs) = Ret fs).
  { unfold decode, new.
    now apply (decode_fields_encode fs (encode fs) [] 0 0). }
  split; [exact Hrt|].
  split.
  - intros fs' Hdec. rewrite Hrt in Hdec. now inversion Hdec.
  - vm_compute. repeat split.
Qed.

Lemma token_codec_round_trip_witness :
  Forall valid_field
    [mkField 1 (Varint 300); mkField 2 (Fixed32 (2 ^ 32 - 1));
     mkField 0 (Fixed64 (2 ^ 64 - 1)); mkField 100 (Varint (2 ^ 64 - 1))]
  /\ decode
       (encode
          [mkField 1 (Varint 300); mkField 2 (Fixed32 (2 ^ 32 - 1));
           mkField 0 (Fixed64 (2 ^ 64 - 1)); mkField 100 (Varint (2 ^ 64 - 1))])
     = Ret [mkField 1 (Varint 300); mkField 2 (Fixed32 (2 ^ 32 - 1));
            mkField 0 (Fixed64 (2 ^ 64 - 1));
            mkField 100 (Varint (2 ^ 64 - 1))].
Proof.
  assert (Hv : Forall valid_field
    [mkField 1 (Varint 300); mkField 2 (Fixed32 (2 ^ 32 - 1));
     mkField 0 (Fixed64 (2 ^ 64 - 1)); mkField 100 (Varint (2 ^ 64 - 1))])
    by (repeat constructor; simpl; lia).
  split; [exact Hv|].
  exact (proj1 (token_codec_round_trip _ Hv)).
Defined.

(** ** fetch: retries *)

Section FetchFacts.
Context `{Decoder}.
Import Fetch.

Lemma set_retryRemaining_same (st : FetchState) :
  set_retryRemaining (retryRemaining st) st = st.
Proof. now destruct st. Qed.

Lemma set_retryRemaining_twice (a b : Z) (st : FetchState) :
  set_retryRemaining a (set_retryRemaining b st) = set_retryRemaining a st.
Proof. reflexivity. Qed.

Lemma try_block_transient (o : PostOutcome) (st : FetchState) :
  transient o = true ->
  try_block o st = (Raise (transient_error o), st)
  /\ has_type_aborted (transient_error o) = false.
Proof.
  destruct o as [|m|r]; simpl; [discriminate|now intros _|].
  destruct (error r) as [[[] msg]|]; now try discriminate.
Qed.

(** A transient failure with budget left costs one unit of the budget and
    one backoff wait. *)
Lemma turn_transient_retry (o : PostOutcome) (l : option bool)
    (st : FetchState) :
  transient o = true -> 0 < retryRemaining st ->
  turn o l st = (Retry (set_retryRemaining (retryRemaining st - 1) st), l).
Proof.
  intros Ht Hr. unfold turn.
  destruct (try_block_transient o st Ht) as [-> Hab].
  unfold catch_block. rewrite Hab.
  destruct (Z.ltb_spec 0 (retryRemaining st)); [reflexivity|lia].
Qed.

(** A transient failure with no budget left is raised. *)
Lemma turn_transient_exhausted (o : PostOutcome) (l : option bool)
    (st : FetchState) :
  transient o = true -> retryRemaining st <= 0 ->
  turn o l st = (Throw (transient_error o), l).
Proof.
  intros Ht Hr. unfold turn.
  destruct (try_block_transient o st Ht) as [-> Hab].
  unfold catch_block. rewrite Hab.
  destruct (Z.ltb_spec 0 (retryRemaining st)); [lia|reflexivity].
Qed.

(** A fatal status is raised whatever the budget. *)
Lemma turn_fatal (r : YTChatResponse) (status : YTChatErrorStatus)
    (message : string) (l : option bool) (st : FetchState) :
  error r = Some (status, message) -> fatal_status status = true ->
  turn (Responded r) l st = (Throw (fatal_error status message), l).
Proof.
  intros Hr Hs. unfold turn, try_block. rewrite Hr.
  destruct status; try discriminate; reflexivity.
Qed.

(** The loop of [fetch] through a run of transient failures that the
    budget covers. *)
Lemma loop_retries (fails : list PostOutcome) :
  forall (script : list PostOutcome) (l : option bool) (st : FetchState)
         (eff : list Effect),
    Forall (fun o => transient o = true) fails ->
    Z.of_nat (length fails) <= retryRemaining st ->
    loop (fails ++ script) l st eff
    = loop script l
        (set_retryRemaining (retryRemaining st - Z.of_nat (length fails)) st)
        (eff ++ concat (repeat [Post (requestUrl st) (requestBody st);
                                Delay retryInterval] (length fails))).
Proof.
  induction fails as [|o fails IH]; intros script l st eff Hf Hr.
  - simpl. rewrite Z.sub_0_r, set_retryRemaining_same, app_nil_r.
    reflexivity.
  - apply Forall_cons in Hf as [Ho Hf].
    cbn [app loop length repeat concat].
    rewrite turn_transient_retry by (simpl in Hr; auto; lia).
    rewrite IH; [|assumption|simpl in *; lia].
    cbn [set_retryRemaining retryRemaining requestUrl requestBody].
    f_equal.
    + unfold set_retryRemaining. simpl. f_equal. lia.
    + rewrite <- !app_assoc. reflexivity.
Qed.

Lemma attempts_retry_trace (k : nat) (st : FetchState) :
  attempts (retry_trace k st) = S k
  /\ delays (retry_trace k st) = repeat retryInterval k.
Proof.
  unfold retry_trace, attempts, delays.
  induction k as [|k [IHa IHd]]; [split; reflexivity|].
  cbn [repeat concat app List.filter is_post omap list_omap length].
  split; [now rewrite IHa | now rewrite IHd].
Qed.

Lemma loop_transient_exhausts (n : nat) (fails : list PostOutcome)
    (last : PostOutcome) (rest : list PostOutcome) (l : option bool)
    (st : FetchState) :
  Forall (fun o => transient o = true) fails ->
  transient last = true ->
  retryRemaining st = Z.of_nat n ->
  length fails = n ->
  loop (fails ++ last :: rest) l st []
  = Some (mkRun (Raise (transient_error last)) l (retry_trace n st) rest).
Proof.
  intros Hf Hl Hr Hn.
  rewrite loop_retries by (auto; lia).
  cbn [loop].
  rewrite turn_transient_exhausted by (auto; simpl; lia).
  unfold retry_trace. now rewrite Hn.
Qed.

Lemma loop_fatal_status (fails : list PostOutcome) (r : YTChatResponse)
    (status : YTChatErrorStatus) (message : string)
    (rest : list PostOutcome) (l : option bool) (st : FetchState) :
  Forall (fun o => transient o = true) fails ->
  error r = Some (status, message) ->
  fatal_status status = true ->
  Z.of_nat (length fails) <= retryRemaining st ->
  loop (fails ++ Responded r :: rest) l st []
  = Some (mkRun (Raise (fatal_error status message)) l
            (retry_trace (length fails) st) rest).
Proof.
  intros Hf Hr Hs Hn.
  rewrite loop_retries by (auto; lia).
  cbn [loop].
  now rewrite (turn_fatal r status message).
Qed.

(** What a turn that goes round the loop again does to the budget. *)
Lemma turn_continues (o : PostOutcome) (l l' : option bool)
    (st st' : FetchState) :
  (turn o l st = (Retry st', l') ->
   0 < retryRemaining st /\ retryRemaining st' = retryRemaining st - 1
   /\ l' = l)
  /\ (turn o l st = (Fallback st', l') ->
      l = None /\ l' = Some false
      /\ retryRemaining st' = retryRemaining st).
Proof.
  unfold turn.
  destruct (try_block o st) as [[r|e] st1] eqn:Htry.
  - assert (Hst : st1 = st).
    { unfold try_block in Htry. destruct o as [|m|r0]; try discriminate.
      destruct (error r0) as [[[] msg]|]; try discriminate.
      now inversion Htry. }
    subst st1. unfold after_try. split; intros Ht;
      repeat match type of Ht with
        | context [match ?x with _ => _ end] => destruct x
        | context [if ?b then _ else _] => destruct b
        end; inversion Ht; subst; auto.
  - unfold catch_block. split; intros Ht.
    + destruct (has_type_aborted e); [discriminate|].
      destruct (Z.ltb_spec 0 (retryRemaining st1)); [|discriminate].
      inversion Ht; subst. cbn [retryRemaining set_retryRemaining].
      unfold try_block in Htry. destruct o as [|m|r0].
      * inversion Htry; subst. auto.
      * inversion Htry; subst. auto.
      * destruct (error r0) as [[[] msg]|]; inversion Htry; subst;
          cbn [retryRemaining set_retryRemaining] in *; auto; lia.
    + destruct (has_type_aborted e); [discriminate|].
      destruct (0 <? retryRemaining st1); discriminate.
Qed.

(** A call of [fetch] ends: it takes at most one turn per unit of budget,
    one for the fallback and one more. *)
Lemma loop_terminates (script : list PostOutcome) :
  forall (l : option bool) (st : FetchState) (eff : list Effect),
    0 <= retryRemaining st ->
    (Z.to_nat (retryRemaining st)
     + (match l with None => 1 | Some _ => 0 end) < length script)%nat ->
    exists r, loop script l st eff = Some r.
Proof.
  induction script as [|o script IH]; intros l st eff Hr Hlen;
    [simpl in Hlen; lia|].
  cbn [loop].
  destruct (turn o l st) as [[res|e|st'|st'] l'] eqn:Ht; eauto.
  - apply (proj1 (turn_continues o l l' st st')) in Ht as (Hpos & Hst' & ->).
    apply IH; [lia|]. simpl in Hlen. rewrite Hst'. lia.
  - apply (proj2 (turn_continues o l l' st st')) in Ht as (-> & -> & Hst').
    apply IH; [lia|]. simpl in Hlen. rewrite Hst'. lia.
Qed.

Lemma fetch_terminates (script : list PostOutcome) (l : option bool)
    (tgt : Target) (arg : FetchArg) :
  (5 <= length script)%nat -> exists r, fetch script l tgt arg = Some r.
Proof.
  intros Hlen. unfold fetch. apply loop_terminates.
  - change (retryRemaining (init l tgt arg)) with 3. lia.
  - change (retryRemaining (init l tgt arg)) with 3. destruct l; simpl; lia.
Qed.

(** C2: a call of [fetch] retries transient failures (transport errors,
    statuses "unavailable" and "internal") after a fixed wait of 3000 ms
    until its budget is used up: with a budget of [n] a call that only
    meets transient failures makes [n + 1] requests and raises the last
    failure, so with the budget of 3 that [fetch] starts with it makes
    exactly 4 requests, waiting 3000 ms three times.  A permission-denied,
    not-found or invalid-argument status is raised where it first occurs,
    without any further request or wait. *)
Theorem fetch_retry_budget
    (fails : list PostOutcome) (last : PostOutcome) (r : YTChatResponse)
    (status : YTChatErrorStatus) (message : string)
    (rest : list PostOutcome) (isLive : option bool) (tgt : Target)
    (arg : FetchArg) :
  Forall (fun o => transient o = true) fails ->
  transient last = true ->
  error r = Some (status, message) ->
  fatal_status status = true ->
  (forall st,
     retryRemaining st = Z.of_nat (length fails) ->
     loop (fails ++ last :: rest) isLive st []
     = Some (mkRun (Raise (transient_error last)) isLive
               (retry_trace (length fails) st) rest)
     /\ attempts (retry_trace (length fails) st) = S (length fails)
     /\ delays (retry_trace (length fails) st)
        = repeat 3000 (length fails))
  /\ (length fails = 3%nat ->
      exists eff,
        fetch (fails ++ last :: rest) isLive tgt arg
        = Some (mkRun (Raise (transient_error last)) isLive eff rest)
        /\ attempts eff = 4%nat
        /\ delays eff = [3000; 3000; 3000])
  /\ ((length fails <= 3)%nat ->
      exists eff,
        fetch (fails ++ Responded r :: rest) isLive tgt arg
        = Some (mkRun (Raise (fatal_error status message)) isLive eff rest)
        /\ attempts eff = S (length fails)
        /\ delays eff = repeat 3000 (length fails))
  /\ (exists eff,
        fetch (Responded r :: rest) isLive tgt arg
        = Some (mkRun (Raise (fatal_error status message)) isLive eff rest)
        /\ attempts eff = 1%nat
        /\ delays eff = []).
Proof.
  intros Hf Hl Hr Hs.
  split; [|split; [|split]].
  - intros st Hst.
    split; [now apply loop_transient_exhausts|].
    apply attempts_retry_trace.
  - intros Hlen.
    exists (retry_trace 3 (init isLive tgt arg)).
    split; [|exact (attempts_retry_trace 3 _)].
    unfold fetch. now apply loop_transient_exhausts.
  - intros Hlen.
    exists (retry_trace (length fails) (init isLive tgt arg)).
    split; [|exact (attempts_retry_trace _ _)].
    unfold fetch. apply loop_fatal_status; auto.
    change (retryRemaining (init isLive tgt arg)) with 3. lia.
  - exists (retry_trace 0 (init isLive tgt arg)).
    split; [|exact (attempts_retry_trace 0 _)].
    unfold fetch.
    apply (loop_fatal_status [] r status message); auto.
    change (retryRemaining (init isLive tgt arg)) with 3. simpl. lia.
Qed.

End FetchFacts.

(** ** iterate: the wait between polls *)

Section IterateFacts.
Context `{Decoder}.
Import Masterchat.

Lemma drift_wait_replay (timeoutMs startMs now : Z) :
  drift_wait (Some false) timeoutMs startMs now = None.
Proof. reflexivity. Qed.

Lemma drift_wait_live (isLive : option bool) (timeoutMs startMs now : Z) :
  isLive <> Some false ->
  drift_wait isLive timeoutMs startMs now
  = if 0 <? timeoutMs - (now - startMs)
    then Some (timeoutMs - (now - startMs)) else None.
Proof.
  intros Hl. unfold drift_wait.
  destruct isLive as [[]|]; [reflexivity|congruence|reflexivity].
Qed.

(** The loop resumed after a [yield] with a continuation in hand. *)
Lemma on_resumed_yielded (s : t) (f : Frame) (res : ChatResponse)
    (startMs now : Z) (k : TimedContinuation) :
  loops s = [(f, Yielded res startMs)] ->
  continuation res = Some k ->
  signal_aborted (signal f) s = false ->
  on_resumed (promise f) now s
  = match drift_wait (isLive s) (timeoutMs k) startMs now with
    | Some ms =>
        suspend (treated f) (AwaitDelay ms (token k)) (perform [Wait ms] s)
    | None => call_fetch (treated f) (Token (token k)) s
    end.
Proof.
  intros Hloops Hk Hsig. unfold on_resumed, find_loop.
  rewrite Hloops. cbn [List.find fst]. rewrite Nat.eqb_refl.
  unfold after_yield. rewrite Hk.
  destruct (drift_wait _ _ _ _); [|reflexivity].
  cbn [signal treated]. unfold signal_aborted in *. cbn [abortedSignals perform].
  now rewrite Hsig.
Qed.

(** C4, amended: on a turn of the polling loop that obtains a
    continuation, in live (or not yet known) mode the wait before the next
    poll is [timeoutMs] minus the time that passed since [fetch] returned,
    when that difference is positive (3800 ms for [timeoutMs = 5000] and
    1200 ms passed since the fetch returned), and there is no wait when
    that time is at least [timeoutMs]; the wait is never negative; in
    replay mode the loop never waits.  The time the fetch itself took does
    not enter the computation. *)
Theorem drift_compensated_wait
    (isLive : option bool) (k : TimedContinuation) (tl : Timeline)
    (t0 t0' : Z) :
  isLive <> Some false ->
  let elapsed := resumed tl - fetchEnd tl in
  (elapsed < timeoutMs k -> iterate_wait isLive k tl = timeoutMs k - elapsed)
  /\ (timeoutMs k <= elapsed -> iterate_wait isLive k tl = 0)
  /\ 0 <= iterate_wait isLive k tl
  /\ iterate_wait (Some false) k tl = 0
  /\ iterate_wait isLive k (mkTimeline t0 (fetchEnd tl) (resumed tl))
     = iterate_wait isLive k (mkTimeline t0' (fetchEnd tl) (resumed tl))
  /\ (timeoutMs k = 5000 -> elapsed = 1200 -> iterate_wait isLive k tl = 3800).
Proof.
  intros Hl elapsed. unfold iterate_wait.
  rewrite drift_wait_live by assumption. fold elapsed.
  destruct (Z.ltb_spec 0 (timeoutMs k - elapsed)); simpl;
    repeat split; intros; try reflexivity; lia.
Qed.

End IterateFacts.

Lemma drift_compensated_wait_witness :
  Some true <> Some false
  /\ Masterchat.iterate_wait (Some true) (mkContinuation "t" 5000)
       (Masterchat.mkTimeline 0 700 1900) = 3800
  /\ Masterchat.iterate_wait (Some true) (mkContinuation "t" 5000)
       (Masterchat.mkTimeline 0 700 6000) = 0.
Proof.
  split; [discriminate|].
  pose proof (drift_compensated_wait (Some true) (mkContinuation "t" 5000)
                (Masterchat.mkTimeline 0 700 1900) 0 0 ltac:(discriminate))
    as (_ & _ & _ & _ & _ & H1).
  pose proof (drift_compensated_wait (Some true) (mkContinuation "t" 5000)
                (Masterchat.mkTimeline 0 700 6000) 0 0 ltac:(discriminate))
    as (_ & H2 & _).
  split; [exact (H1 eq_refl eq_refl) | apply H2; simpl; lia].
Defined.

(** C4, as stated, fails: [startMs] is read after [fetch] has returned, so
    the time the fetch took is not subtracted.  With [timeoutMs = 5000], a
    fetch that took 1200 ms and a batch consumed at once, the loop waits
    5000 ms, not 3800 ms; and after a fetch that took 6000 ms it still waits
    5000 ms instead of not waiting. *)
Lemma drift_counterexample :
  let k := mkContinuation "t" 5000 in
  let tl := Masterchat.mkTimeline 0 1200 1200 in
  let tl' := Masterchat.mkTimeline 0 6000 6000 in
  Masterchat.fetchEnd tl - Masterchat.fetchStart tl = 1200
  /\ Masterchat.iterate_wait (Some true) k tl = 5000
  /\ Masterchat.iterate_wait (Some true) k tl <> 5000 - 1200
  /\ Masterchat.fetchEnd tl' - Masterchat.fetchStart tl' = 6000
  /\ Masterchat.iterate_wait (Some true) k tl' = 5000
  /\ Masterchat.iterate_wait (Some true) k tl' <> 0
  /\ Masterchat.loops
       (Masterchat.run
          [Masterchat.Listen (Masterchat.mkIterate None None None);
           Masterchat.PostSettled 2
             (Responded (mkResponse None
                (Some (mkContents (Some k) (Some [2%nat]))) None false)) 1200;
           Masterchat.Resumed 2 1200]
          (Masterchat.new "v" "c" (Masterchat.mkOptions (Some Masterchat.live))))
     = [(Masterchat.mkFrame 2 1 false true, Masterchat.AwaitDelay 5000 "t")].
Proof.
  vm_compute. repeat split; discriminate.
Qed.

(** ** The session invariant *)

Section SessionFacts.
Context `{Decoder}.
Import Masterchat.

Lemma remove_loop_self (f : Frame) (ph : Phase) (p : nat) :
  promise f = p -> remove_loop p [(f, ph)] = [].
Proof.
  intros <-. unfold remove_loop. cbn [List.filter fst].
  now rewrite Nat.eqb_refl.
Qed.

Lemma find_loop_single (s : t) (f : Frame) (ph : Phase) (p : nat) :
  loops s = [(f, ph)] ->
  find_loop p s = if (promise f =? p)%nat then Some (f, ph) else None.
Proof. intros Hl. unfold find_loop. now rewrite Hl. Qed.

Lemma find_loop_none (s : t) (p : nat) :
  loops s = [] -> find_loop p s = None.
Proof. intros Hl. unfold find_loop. now rewrite Hl. Qed.

Ltac session_simpl :=
  cbn [listener loops listenerAbortion abortedSignals fresh isLive emitted
       effects settled chatsListenerCount videoId channelId
       finish suspend post call_fetch set_isLive set_listener set_loops
       emit perform settle new_controller abort
       promise signal treated fst snd] in *.

(** The shapes [loops] can take after a step of a one-loop session. *)
Lemma wf_intro_idle (s : t) :
  (listenerAbortion s < fresh s)%nat ->
  (forall ctl, ctl ∈ abortedSignals s -> (ctl < fresh s)%nat) ->
  listener s = None -> loops s = [] -> wf s.
Proof. intros Hf Ha Hp Hl. unfold wf. rewrite Hp. auto. Qed.

Lemma wf_intro_running (s : t) (f : Frame) (ph : Phase) :
  (listenerAbortion s < fresh s)%nat ->
  (forall ctl, ctl ∈ abortedSignals s -> (ctl < fresh s)%nat) ->
  listener s = Some (promise f) -> loops s = [(f, ph)] ->
  signal f = listenerAbortion s -> phase_ok s ph -> wf s.
Proof.
  intros Hf Ha Hp Hl Hs Hph. unfold wf. rewrite Hp.
  repeat split; auto. exists f, ph. auto.
Qed.

(** A session in which a loop runs, taken apart. *)
Lemma wf_running (s : t) (p : nat) :
  wf s -> listener s = Some p ->
  (listenerAbortion s < fresh s)%nat
  /\ (forall ctl, ctl ∈ abortedSignals s -> (ctl < fresh s)%nat)
  /\ exists f ph,
       loops s = [(f, ph)] /\ promise f = p
       /\ signal f = listenerAbortion s /\ phase_ok s ph.
Proof.
  intros (Hf & Ha & Hl) Hp. rewrite Hp in Hl. auto.
Qed.

Lemma wf_idle (s : t) :
  wf s -> listener s = None -> loops s = [].
Proof. intros (_ & _ & Hl) Hp. now rewrite Hp in Hl. Qed.

Ltac walk :=
  repeat match goal with
    | |- context [if ?b then _ else _] => destruct b eqn:?
    | |- context [match ?x with _ => _ end] => destruct x eqn:?
    end.

Ltac wf_leaf :=
  unfold call_fetch, post;
  lazymatch goal with
  | |- wf (finish _ _ _) => apply wf_intro_idle
  | |- wf (suspend ?f' ?ph' _) => apply (wf_intro_running _ f' ph')
  end;
  unfold phase_ok, signal_aborted in *;
  session_simpl;
  repeat match goal with
    | Hl : loops _ = [_] |- _ =>
        rewrite Hl, remove_loop_self by reflexivity
    end;
  try first
    [ assumption | reflexivity | congruence
    | match goal with
      | Hs : signal _ = listenerAbortion _ |- _ => rewrite <- Hs; assumption
      end ].

Lemma wf_completion (i : Input) (s : t) :
  wf s -> is_completion i = true ->
  wf (step i s).
Proof.
  intros Hwf Hi.
  destruct (listener s) as [p|] eqn:Hp.
  - destruct (wf_running s p Hwf Hp)
      as (Hf & Ha & f & ph & Hl & Hpf & Hs & Hph).
    destruct i as [o| |p' o now|p'|p' now]; try discriminate;
      cbn [step]; unfold on_post_settled, on_timer, on_resumed;
      rewrite (find_loop_single s f ph) by assumption;
      (destruct (promise f =? p')%nat; [|assumption]).
    + destruct ph as [ctl st|st|res startMs|ms tok]; try assumption.
      destruct (Fetch.turn _ _ _) as [[res|e|st'|st'] l].
      * unfold fetched, after_yield. walk; wf_leaf.
      * wf_leaf.
      * wf_leaf.
      * wf_leaf.
    + destruct ph as [ctl st|st|res startMs|ms tok]; try assumption;
        wf_leaf.
    + destruct ph as [ctl st|st|res startMs|ms tok]; try assumption.
      unfold after_yield. walk; wf_leaf.
  - pose proof (wf_idle s Hwf Hp) as Hl.
    destruct i as [o| |p' o now|p'|p' now]; try discriminate;
      cbn [step]; unfold on_post_settled, on_timer, on_resumed;
      rewrite (find_loop_none s) by assumption; assumption.
Qed.

Lemma wf_new (vid cid : string) (o : MasterchatOptions) :
  wf (new vid cid o).
Proof.
  apply wf_intro_idle; cbn; try reflexivity; [lia|].
  intros ctl Hc. now apply elem_of_empty in Hc.
Qed.

(** A controller that was just created is not aborted. *)
Lemma fresh_signal_not_aborted (s : t) :
  wf s -> signal_aborted (fresh s) (new_controller s) = false.
Proof.
  intros (_ & Ha & _). unfold signal_aborted. session_simpl.
  apply bool_decide_eq_false. intros Hin. apply Ha in Hin. lia.
Qed.

(** [listen] on a stopped session starts one loop, whose first request
    is out when [listen] returns. *)
Lemma listen_idle (o : IterateChatOptions) (s : t) :
  wf s -> listener s = None ->
  exists f st,
    promise f = S (fresh s)
    /\ signal f = fresh s
    /\ listen o s
       = (S (fresh s),
          set_listener (Some (S (fresh s)))
            (suspend f (AwaitPost (fresh s) st)
               (perform [Post (requestUrl st) (requestBody st)]
                  (new_controller s)))).
Proof.
  intros Hwf Hp. unfold listen. rewrite Hp.
  cbn [listenerAbortion new_controller signal].
  rewrite (fresh_signal_not_aborted s Hwf).
  eexists _, _. split; [|split]; [| |reflexivity]; reflexivity.
Qed.

Lemma wf_listen (o : IterateChatOptions) (s : t) :
  wf s -> wf (snd (listen o s)).
Proof.
  intros Hwf.
  destruct (listener s) as [p|] eqn:Hp.
  - unfold listen. now rewrite Hp.
  - destruct (listen_idle o s Hwf Hp) as (f & st & Hpf & Hs & ->).
    pose proof (wf_idle s Hwf Hp) as Hl.
    destruct Hwf as (Hf & Ha & _).
    cbn [snd].
    apply (wf_intro_running _ f (AwaitPost (fresh s) st));
      session_simpl; try rewrite Hl; try first [lia | congruence].
    + intros ctl Hc. apply Ha in Hc. lia.
    + reflexivity.
    + reflexivity.
Qed.


(** [stop] on a running session: a sleeping loop is woken up with an
    [AbortError], any other loop stays suspended. *)
Lemma stop_running (s : t) (f : Frame) (ph : Phase) :
  wf s -> listener s = Some (promise f) -> loops s = [(f, ph)] ->
  stop s
  = match ph with
    | AwaitDelay _ _ =>
        finish f (Raise AbortError) (emit [EvEnd] (abort s))
    | _ => emit [EvEnd] (abort s)
    end.
Proof.
  intros Hwf Hp Hl.
  destruct (wf_running s _ Hwf Hp)
    as (_ & _ & f' & ph' & Hl' & _ & Hs & _).
  rewrite Hl in Hl'. inversion Hl'; subst f' ph'.
  unfold stop, interrupt. rewrite Hp. session_simpl. rewrite Hl.
  cbn [fold_right snd fst].
  destruct ph; try reflexivity.
  unfold signal_aborted at 1. session_simpl. rewrite Hs.
  rewrite bool_decide_eq_true_2 by set_solver. reflexivity.
Qed.

Lemma wf_stop (s : t) : wf s -> wf (stop s).
Proof.
  intros Hwf.
  destruct (listener s) as [p|] eqn:Hp.
  - destruct (wf_running s p Hwf Hp)
      as (Hf & Ha & f & ph & Hl & Hpf & Hs & Hph).
    subst p. rewrite (stop_running s f ph Hwf Hp Hl).
    assert (Ha' : forall ctl,
               ctl ∈ abortedSignals (abort s) -> (ctl < fresh s)%nat).
    { session_simpl. intros ctl Hc.
      apply elem_of_union in Hc as [Hc|Hc]; [|now apply Ha].
      apply elem_of_singleton in Hc. now subst. }
    destruct ph as [ctl st|st|res startMs|ms tok].
    + apply (wf_intro_running _ f (AwaitPost ctl st)); auto.
    + apply (wf_intro_running _ f (AwaitRetry st)); auto.
    + apply (wf_intro_running _ f (Yielded res startMs)); auto.
    + apply wf_intro_idle; session_simpl; auto.
      rewrite Hl. now apply remove_loop_self.
  - unfold stop. now rewrite Hp.
Qed.

Lemma wf_step (i : Input) (s : t) : wf s -> wf (step i s).
Proof.
  intros Hwf. destruct i as [o| |p o now|p|p now].
  - now apply wf_listen.
  - now apply wf_stop.
  - now apply wf_completion.
  - now apply wf_completion.
  - now apply wf_completion.
Qed.

Lemma wf_run (ins : list Input) :
  forall s, wf s -> wf (run ins s).
Proof.
  induction ins as [|i ins IH]; intros s Hwf; [assumption|].
  apply IH. now apply wf_step.
Qed.

Lemma wf_reachable (s : t) : reachable s -> wf s.
Proof.
  intros (vid & cid & o & ins & ->). apply wf_run, wf_new.
Qed.

(** C10: [listen] on a session whose listener is active returns that
    listener and changes nothing, so no second polling loop is started; in
    every state a session can reach at most one polling loop is active,
    it is the loop behind the listener, and [stopped] holds exactly when
    there is no listener, which is exactly when no loop is active. *)
Theorem listen_is_idempotent (s : t) (o : IterateChatOptions) :
  reachable s ->
  (forall p, listener s = Some p -> listen o s = (p, s))
  /\ (forall p, listener s = Some p -> step (Listen o) s = s)
  /\ (length (loops s) <= 1)%nat
  /\ (forall p, listener s = Some p ->
        exists f ph, loops s = [(f, ph)] /\ promise f = p)
  /\ (stopped s = true <-> listener s = None)
  /\ (stopped s = true <-> loops s = [])
  /\ (forall ins, (length (loops (run ins s)) <= 1)%nat).
Proof.
  intros Hreach. pose proof (wf_reachable s Hreach) as Hwf.
  assert (Hone : forall s', wf s' -> (length (loops s') <= 1)%nat).
  { intros s' (_ & _ & Hl). destruct (listener s').
    - destruct Hl as (f & ph & -> & _). simpl. lia.
    - rewrite Hl. simpl. lia. }
  split; [|split; [|split; [|split; [|split; [|split]]]]].
  - intros p Hp. unfold listen. now rewrite Hp.
  - intros p Hp. cbn [step]. unfold listen. now rewrite Hp.
  - now apply Hone.
  - intros p Hp.
    destruct (wf_running s p Hwf Hp) as (_ & _ & f & ph & Hl & Hpf & _).
    eauto.
  - unfold stopped. destruct (listener s); split; congruence.
  - unfold stopped. destruct (listener s) as [p|] eqn:Hp.
    + destruct (wf_running s p Hwf Hp) as (_ & _ & f & ph & Hl & _).
      rewrite Hl. split; discriminate.
    + split; [intros _; now apply wf_idle | reflexivity].
  - intros ins. apply Hone. now apply wf_run.
Qed.

(** ** Cancellation *)






Lemma no_error_batch (res : ChatResponse) (s : t) :
  no_error (batch_events res s).
Proof.
  unfold batch_events, no_error.
  destruct (0 <? chatsListenerCount s)%nat; repeat constructor.
Qed.








(** ** The fallback to the replay endpoint *)

Lemma switches_app (a b : list Effect) :
  Fetch.switches (a ++ b) = (Fetch.switches a + Fetch.switches b)%nat.
Proof.
  unfold Fetch.switches. now rewrite List.filter_app, length_app.
Qed.

(** Only the fallback changes [this.isLive], from unknown to replay. *)
Lemma turn_mode (o : PostOutcome) (l l' : option bool)
    (st : FetchState) (fs : FetchStep) :
  Fetch.turn o l st = (fs, l') ->
  match fs with
  | Fallback _ => l = None /\ l' = Some false
  | _ => l' = l
  end.
Proof.
  unfold Fetch.turn.
  destruct (Fetch.try_block o st) as [[r|e] st'].
  - unfold Fetch.after_try. intros Ht.
    repeat match type of Ht with
      | context [match ?x with _ => _ end] => destruct x
      | context [if ?b then _ else _] => destruct b
      end; inversion Ht; subst; auto.
  - unfold Fetch.catch_block. intros Ht.
    repeat match type of Ht with
      | context [if ?b then _ else _] => destruct b
      end; inversion Ht; subst; auto.
Qed.

Ltac budget_leaf :=
  unfold fallback_budget, call_fetch, post;
  session_simpl; rewrite ?switches_app;
  cbn [Fetch.switches List.filter Fetch.is_switch length unknown];
  try lia.

Lemma fallback_budget_after_yield (f : Frame) (res : ChatResponse)
    (startMs now : Z) (s : t) :
  fallback_budget (after_yield f res startMs now s) = fallback_budget s.
Proof. unfold after_yield. walk; budget_leaf. Qed.

Lemma fallback_budget_fetched (f : Frame) (res : ChatResponse) (now : Z)
    (s : t) :
  fallback_budget (fetched f res now s) = fallback_budget s.
Proof.
  unfold fetched.
  destruct (negb _); [budget_leaf|apply fallback_budget_after_yield].
Qed.

Lemma fallback_budget_interrupt (ls : list (Frame * Phase)) (s : t) :
  fallback_budget
    (fold_right
       (fun l acc =>
          match snd l with
          | AwaitDelay _ _ =>
              if signal_aborted (signal (fst l)) acc
              then finish (fst l) (Raise AbortError) acc
              else acc
          | _ => acc
          end) s ls)
  = fallback_budget s.
Proof.
  induction ls as [|l ls IH]; [reflexivity|]. cbn [fold_right].
  destruct (snd l); try exact IH.
  destruct (signal_aborted _ _); [|exact IH].
  rewrite <- IH. budget_leaf.
Qed.

(** No step of a session changes the number of fallbacks made plus the
    one still possible. *)
Lemma fallback_budget_step (i : Input) (s : t) :
  fallback_budget (step i s) = fallback_budget s.
Proof.
  destruct i as [o| |p o now|p|p now]; cbn [step].
  - unfold listen. walk; budget_leaf.
  - unfold stop, interrupt. destruct (listener s); [|reflexivity].
    rewrite fallback_budget_interrupt. budget_leaf.
  - unfold on_post_settled.
    destruct (find_loop p s) as [[f [ctl st|st|res startMs|ms tok]]|];
      try reflexivity.
    destruct (Fetch.turn _ _ _) as [fs l] eqn:Ht.
    apply turn_mode in Ht.
    destruct fs as [res|e|st'|st'].
    + rewrite fallback_budget_fetched. subst l. budget_leaf.
    + subst l. budget_leaf.
    + subst l. budget_leaf.
    + destruct Ht as [Hl ->]. budget_leaf. rewrite Hl. simpl. lia.
  - unfold on_timer.
    destruct (find_loop p s) as [[f [ctl st|st|res startMs|ms tok]]|];
      try reflexivity; budget_leaf.
  - unfold on_resumed.
    destruct (find_loop p s) as [[f [ctl st|st|res startMs|ms tok]]|];
      try reflexivity.
    apply fallback_budget_after_yield.
Qed.

Lemma fallback_budget_run (ins : list Input) :
  forall s, fallback_budget (run ins s) = fallback_budget s.
Proof.
  induction ins as [|i ins IH]; intros s; [reflexivity|].
  cbn [run fold_left]. fold (run ins (step i s)).
  now rewrite IH, fallback_budget_step.
Qed.

(** The same for one call of [fetch]. *)
Lemma loop_budget (script : list PostOutcome) :
  forall (l : option bool) (st : FetchState) (eff : list Effect)
         (r : Fetch.Run),
    Fetch.loop script l st eff = Some r ->
    (unknown (Fetch.isLive' r) + Fetch.switches (Fetch.effects r)
     = unknown l + Fetch.switches eff)%nat.
Proof.
  induction script as [|o script IH]; intros l st eff r; [discriminate|].
  cbn [Fetch.loop].
  destruct (Fetch.turn o l st) as [fs l'] eqn:Ht.
  apply turn_mode in Ht.
  destruct fs as [res|e|st'|st'].
  - intros [= <-]. subst l'. simpl. rewrite switches_app.
    cbn [Fetch.switches List.filter Fetch.is_switch length]. lia.
  - intros [= <-]. subst l'. simpl. rewrite switches_app.
    cbn [Fetch.switches List.filter Fetch.is_switch length]. lia.
  - intros Hr. apply IH in Hr. subst l'. rewrite Hr.
    rewrite !switches_app.
    cbn [Fetch.switches List.filter Fetch.is_switch length]. lia.
  - intros Hr. apply IH in Hr. destruct Ht as [-> ->]. rewrite Hr.
    rewrite !switches_app.
    cbn [Fetch.switches List.filter Fetch.is_switch length unknown]. lia.
Qed.

Lemma turn_disabled (r : YTChatResponse) (reason : string)
    (l : option bool) (st : FetchState) :
  error r = None -> continuationContents r = None ->
  contents r = Some reason -> Fetch.test "disabled" reason = true ->
  Fetch.turn (Responded r) l st
  = match l with
    | None => (Fallback (Fetch.applyNewLiveStatus false st), Some false)
    | Some _ => (Throw (DisabledChatError reason), l)
    end.
Proof.
  intros He Hc Hr Ht. unfold Fetch.turn, Fetch.try_block. rewrite He.
  unfold Fetch.after_try. now rewrite Hc, Hr, Ht.
Qed.

(** C3: a response saying that chat is disabled, received while the mode
    is unknown, makes [fetch] switch the session to replay, rebuild the
    request for the replay endpoint and go on within the same call, with
    the retry budget untouched and without a wait; once the mode is
    committed the same response raises a [DisabledChatError]; and a
    session falls back at most once, never when it was constructed with a
    mode. *)
Theorem live_to_replay_fallback
    (r : YTChatResponse) (script : list PostOutcome) (st : FetchState)
    (eff : list Effect) (b : bool) :
  Fetch.says_disabled r ->
  Fetch.turn (Responded r) None st
  = (Fallback (Fetch.applyNewLiveStatus false st), Some false)
  /\ requestUrl (Fetch.applyNewLiveStatus false st) = EP_GLCR
  /\ requestBody (Fetch.applyNewLiveStatus false st)
     = match tokenOrOptions st with
       | Token tok => GivenToken tok
       | Options _ => Rtc (target st) (topChat st)
       end
  /\ retryRemaining (Fetch.applyNewLiveStatus false st) = retryRemaining st
  /\ Fetch.loop (Responded r :: script) None st eff
     = Fetch.loop script (Some false) (Fetch.applyNewLiveStatus false st)
         (eff ++ [Post (requestUrl st) (requestBody st); Switched])
  /\ (exists reason,
        contents r = Some reason
        /\ Fetch.loop (Responded r :: script) (Some b) st eff
           = Some (Fetch.mkRun (Raise (DisabledChatError reason)) (Some b)
                     (eff ++ [Post (requestUrl st) (requestBody st)])
                     script))
  /\ (forall script' l st' eff' run,
        Fetch.loop script' l st' eff' = Some run ->
        (Fetch.switches (Fetch.effects run)
         <= Fetch.switches eff' + unknown l)%nat
        /\ (Fetch.switches eff' < Fetch.switches (Fetch.effects run)
            -> l = None /\ Fetch.isLive' run <> None)%nat)
  /\ (forall vid cid o ins,
        (Fetch.switches (effects (run ins (new vid cid o))) <= 1)%nat
        /\ (mode o <> None ->
            Fetch.switches (effects (run ins (new vid cid o))) = 0%nat)).
Proof.
  intros (He & Hc & reason & Hr & Ht).
  pose proof (turn_disabled r reason None st He Hc Hr Ht) as Hturn.
  split; [exact Hturn|].
  split; [reflexivity|].
  split; [reflexivity|].
  split; [reflexivity|].
  split.
  { cbn [Fetch.loop]. rewrite Hturn. now rewrite <- app_assoc. }
  split.
  { exists reason. split; [assumption|]. cbn [Fetch.loop].
    now rewrite (turn_disabled r reason (Some b) st He Hc Hr Ht). }
  split.
  - intros script' l st' eff' run0 Hrun.
    pose proof (loop_budget script' l st' eff' run0 Hrun) as Hb.
    split; [lia|].
    intros Hlt. destruct l; simpl in Hb; [lia|].
    split; [reflexivity|].
    destruct (Fetch.isLive' run0); [discriminate|simpl in Hb; lia].
  - intros vid cid o ins.
    pose proof (fallback_budget_run ins (new vid cid o)) as Hb.
    unfold fallback_budget in Hb. cbn [effects isLive new] in Hb.
    change (Fetch.switches []) with 0%nat in Hb.
    split.
    + destruct (mode o) as [[]|]; cbn [unknown] in Hb; lia.
    + intros Hm. destruct (mode o) as [[]|]; [| |congruence];
        cbn [unknown] in Hb; lia.
Qed.

End SessionFacts.

Lemma listen_is_idempotent_witness :
  let o := Masterchat.mkIterate None None None in
  let s := Masterchat.run [Masterchat.Listen o]
             (Masterchat.new "v" "c" (Masterchat.mkOptions None)) in
  Masterchat.reachable s
  /\ Masterchat.listener s = Some 2%nat
  /\ Masterchat.listen o s = (2%nat, s)
  /\ Masterchat.stopped s = false.
Proof.
  intros o s.
  assert (Hr : Masterchat.reachable s)
    by (exists "v", "c", (Masterchat.mkOptions None), [Masterchat.Listen o];
        reflexivity).
  split; [exact Hr|].
  split; [reflexivity|].
  split; [|reflexivity].
  exact (proj1 (listen_is_idempotent s o Hr) 2%nat eq_refl).
Defined.




Lemma live_to_replay_fallback_witness :
  let disabled :=
    mkResponse None None (Some "Chat is disabled for this live stream.")
      false in
  let batch :=
    mkResponse None
      (Some (mkContents (Some (mkContinuation "t" 0)) (Some [2%nat])))
      None false in
  let tgt := mkTarget "c" "v" in
  Fetch.says_disabled disabled
  /\ Fetch.fetch [Responded disabled; Responded batch] None tgt (Options None)
     = Some (Fetch.mkRun
               (Ret (mkChat [2%nat] (Some (mkContinuation "t" 0))))
               (Some false)
               [Post EP_GLC (Lrc tgt false); Switched;
                Post EP_GLCR (Rtc tgt false)] [])
  /\ Fetch.fetch [Responded disabled; Responded batch] (Some true) tgt
       (Options None)
     = Some (Fetch.mkRun
               (Raise (DisabledChatError
                         "Chat is disabled for this live stream."))
               (Some true) [Post EP_GLC (Lrc tgt false)] [Responded batch]).
Proof.
  intros disabled batch tgt.
  assert (Hd : Fetch.says_disabled disabled).
  { split; [reflexivity|]. split; [reflexivity|].
    exists "Chat is disabled for this live stream.". now split. }
  split; [exact Hd|].
  destruct (live_to_replay_fallback disabled [Responded batch]
              (Fetch.init None tgt (Options None)) [] true Hd)
    as (_ & _ & _ & _ & Hloop & (reason & Hreason & Hthrow) & _).
  split.
  - unfold Fetch.fetch. rewrite Hloop. reflexivity.
  - injection Hreason as <-. exact Hthrow.
Defined.

Lemma fetch_retry_budget_witness :
  let unavailable :=
    Responded (mkResponse (Some (Unavailable, "try later")) None None false) in
  let denied := mkResponse (Some (PermissionDenied, "private")) None None false in
  let tgt := mkTarget "c" "v" in
  Forall (fun o => Fetch.transient o = true)
    [Rejected "ECONNRESET"; unavailable; Rejected "ETIMEDOUT"]
  /\ Fetch.transient (Rejected "ECONNRESET") = true
  /\ error denied = Some (PermissionDenied, "private")
  /\ Fetch.fatal_status PermissionDenied = true
  /\ (exists eff,
        Fetch.fetch
          ([Rejected "ECONNRESET"; unavailable; Rejected "ETIMEDOUT"]
             ++ Rejected "ECONNRESET" :: [])
          (Some true) tgt (Options None)
        = Some (Fetch.mkRun (Raise (TransportError "ECONNRESET")) (Some true)
                  eff [])
        /\ Fetch.attempts eff = 4%nat
        /\ Fetch.delays eff = [3000; 3000; 3000])
  /\ (exists eff,
        Fetch.fetch (Responded denied :: []) (Some true) tgt (Options None)
        = Some (Fetch.mkRun (Raise (NoPermissionError "private")) (Some true)
                  eff [])
        /\ Fetch.attempts eff = 1%nat
        /\ Fetch.delays eff = []).
Proof.
  intros unavailable denied tgt.
  assert (Hf : Forall (fun o => Fetch.transient o = true)
                 [Rejected "ECONNRESET"; unavailable; Rejected "ETIMEDOUT"])
    by (repeat constructor).
  split; [exact Hf|].
  split; [reflexivity|].
  split; [reflexivity|].
  split; [reflexivity|].
  destruct (fetch_retry_budget
              [Rejected "ECONNRESET"; unavailable; Rejected "ETIMEDOUT"]
              (Rejected "ECONNRESET") denied PermissionDenied "private" []
              (Some true) tgt (Options None) Hf eq_refl eq_refl eq_refl)
    as (_ & H4 & _ & H1).
  split; [exact (H4 eq_refl) | exact H1].
Defined.

(** ** StreamPool *)

Section PoolFacts.
Context `{Decoder}.

Ltac walk :=
  repeat match goal with
    | |- context [if ?b then _ else _] => destruct b eqn:?
    | |- context [match ?x with _ => _ end] => destruct x eqn:?
    end.

Lemma videoId_interrupt (ls : list (Masterchat.Frame * Masterchat.Phase))
    (s : Masterchat.t) :
  Masterchat.videoId
    (fold_right
       (fun l acc =>
          match snd l with
          | Masterchat.AwaitDelay _ _ =>
              if Masterchat.signal_aborted (Masterchat.signal (fst l)) acc
              then Masterchat.finish (fst l) (Raise AbortError) acc
              else acc
          | _ => acc
          end) s ls)
  = Masterchat.videoId s.
Proof.
  induction ls as [|l ls IH]; [reflexivity|]. cbn [fold_right].
  destruct (snd l); try exact IH.
  destruct (Masterchat.signal_aborted _ _); [|exact IH].
  rewrite <- IH. reflexivity.
Qed.

(** A session keeps its video id. *)
Lemma videoId_step (i : Masterchat.Input) (s : Masterchat.t) :
  Masterchat.videoId (Masterchat.step i s) = Masterchat.videoId s.
Proof.
  destruct i as [o| |p o now|p|p now]; cbn [Masterchat.step].
  - unfold Masterchat.listen. walk; reflexivity.
  - unfold Masterchat.stop, Masterchat.interrupt.
    destruct (Masterchat.listener s); [|reflexivity].
    now rewrite videoId_interrupt.
  - unfold Masterchat.on_post_settled, Masterchat.fetched,
      Masterchat.after_yield.
    walk; reflexivity.
  - unfold Masterchat.on_timer. walk; reflexivity.
  - unfold Masterchat.on_resumed, Masterchat.after_yield.
    walk; reflexivity.
Qed.

Lemma pool_ok_handle (mc : Masterchat.t) (e : Masterchat.Event)
    (p : StreamPool.t) :
  StreamPool.pool_ok p -> StreamPool.pool_ok (StreamPool.handle mc e p).
Proof.
  intros Hok vid h. destruct e; cbn; try apply Hok.
  - intros Hlk. apply lookup_delete_Some in Hlk as [_ Hlk]. now apply Hok.
  - intros Hlk. apply lookup_delete_Some in Hlk as [_ Hlk]. now apply Hok.
Qed.

Lemma pool_ok_handlers (mc : Masterchat.t) (evs : list Masterchat.Event) :
  forall p,
    StreamPool.pool_ok p ->
    StreamPool.pool_ok
      (fold_left (fun p e => StreamPool.handle mc e p) evs p).
Proof.
  induction evs as [|e evs IH]; intros p Hok; [assumption|].
  cbn [fold_left]. apply IH. now apply pool_ok_handle.
Qed.

Lemma pool_ok_relay (h : nat) (old new : Masterchat.t) (p : StreamPool.t) :
  StreamPool.pool_ok p ->
  StreamPool.heap p !! h = Some old ->
  Masterchat.videoId new = Masterchat.videoId old ->
  StreamPool.pool_ok (StreamPool.relay h old new p).
Proof.
  intros Hok Hh Hv. unfold StreamPool.relay.
  apply pool_ok_handlers.
  intros vid h' Hlk. cbn in *.
  destruct (Hok vid h' Hlk) as (mc & Hmc & Hvid).
  destruct (decide (h = h')) as [<-|Hne].
  - exists new. split.
    + apply list_lookup_insert_eq. now apply lookup_lt_Some in Hh.
    + congruence.
  - exists mc. split; [|assumption].
    now rewrite list_lookup_insert_ne.
Qed.

Lemma pool_ok_deliver (h : nat) (i : Masterchat.Input) (p : StreamPool.t) :
  StreamPool.pool_ok p -> StreamPool.pool_ok (StreamPool.deliver h i p).
Proof.
  intros Hok. unfold StreamPool.deliver.
  destruct (StreamPool.heap p !! h) as [mc|] eqn:Hh; [|assumption].
  apply pool_ok_relay; auto. apply videoId_step.
Qed.

Lemma has_get (vid : string) (p : StreamPool.t) :
  StreamPool.has vid p = true <-> exists h, StreamPool.get vid p = Some h.
Proof.
  unfold StreamPool.has, StreamPool.get.
  rewrite bool_decide_eq_true. reflexivity.
Qed.

(** [subscribe] on a registered video id hands out the registered session
    and leaves the pool, and every session in it, as they were. *)
Lemma subscribe_registered (vid cid : string)
    (o : Masterchat.IterateChatOptions) (p : StreamPool.t) (h : nat) :
  StreamPool.pool p !! vid = Some h ->
  StreamPool.subscribe vid cid o p = (Some h, p).
Proof.
  intros Hlk. unfold StreamPool.subscribe.
  assert (Hhas : StreamPool.has vid p = true)
    by (apply has_get; now exists h).
  rewrite Hhas. unfold StreamPool.get. now rewrite Hlk.
Qed.

(** [subscribe] on a video id that is not registered constructs one
    session, starts it and registers it. *)
Lemma subscribe_fresh (vid cid : string)
    (o : Masterchat.IterateChatOptions) (p : StreamPool.t) :
  StreamPool.pool p !! vid = None ->
  exists mc,
    Masterchat.videoId mc = vid
    /\ StreamPool.subscribe vid cid o p
       = (Some (length (StreamPool.heap p)),
          StreamPool.mk (<[vid := length (StreamPool.heap p)]>
                           (StreamPool.pool p))
            (StreamPool.options p) true (StreamPool.heap p ++ [mc])
            (StreamPool.emitted p)).
Proof.
  intros Hlk. unfold StreamPool.subscribe.
  assert (Hhas : StreamPool.has vid p = false).
  { unfold StreamPool.has. apply bool_decide_eq_false.
    rewrite Hlk. intros [x Hx]. discriminate. }
  rewrite Hhas. eexists. split; [|reflexivity].
  change (Masterchat.listen o ?s).2
    with (Masterchat.step (Masterchat.Listen o) s).
  now rewrite videoId_step.
Qed.

Lemma pool_ok_subscribe (vid cid : string)
    (o : Masterchat.IterateChatOptions) (p : StreamPool.t) :
  StreamPool.pool_ok p ->
  StreamPool.pool_ok (StreamPool.subscribe vid cid o p).2.
Proof.
  intros Hok.
  destruct (StreamPool.pool p !! vid) as [h|] eqn:Hlk.
  - now rewrite (subscribe_registered vid cid o p h).
  - destruct (subscribe_fresh vid cid o p Hlk) as (mc & Hv & ->).
    intros vid' h'. cbn.
    destruct (decide (vid = vid')) as [<-|Hne].
    + rewrite lookup_insert_eq. intros [= <-].
      exists mc. split; [|assumption].
      rewrite lookup_app_r by lia. now rewrite Nat.sub_diag.
    + rewrite lookup_insert_ne by assumption. intros Hlk'.
      destruct (Hok vid' h' Hlk') as (mc' & Hmc & Hvid).
      exists mc'. split; [|assumption].
      rewrite lookup_app_l; [assumption|].
      now apply lookup_lt_Some in Hmc.
Qed.

Lemma pool_ok_step (i : StreamPool.Input) (p : StreamPool.t) :
  StreamPool.pool_ok p -> StreamPool.pool_ok (StreamPool.step i p).
Proof.
  intros Hok. destruct i as [vid cid o|vid|h i]; cbn [StreamPool.step].
  - now apply pool_ok_subscribe.
  - unfold StreamPool.unsubscribe.
    destruct (StreamPool.get vid p); [|assumption].
    now apply pool_ok_deliver.
  - now apply pool_ok_deliver.
Qed.

Lemma pool_ok_reachable (p : StreamPool.t) :
  StreamPool.reachable p -> StreamPool.pool_ok p.
Proof.
  intros (o & ins & ->).
  assert (Hnew : StreamPool.pool_ok (StreamPool.new o)).
  { intros vid h Hlk. cbn in Hlk. now rewrite lookup_empty in Hlk. }
  revert Hnew. generalize (StreamPool.new o).
  induction ins as [|i ins IH]; intros p Hok; [assumption|].
  apply IH. now apply pool_ok_step.
Qed.

(** C1: [subscribe] on a video id that is registered in the pool returns
    the registered session and changes nothing: no session is constructed
    and none is started.  So a second [subscribe] returns the session of
    the first, and in every state the pool can reach a video id has at
    most one session registered, which is a session of that video. *)
Theorem subscribe_single_instance (p : StreamPool.t) (vid cid cid' : string)
    (o o' : Masterchat.IterateChatOptions) :
  StreamPool.reachable p ->
  (forall h, StreamPool.pool p !! vid = Some h ->
             StreamPool.subscribe vid cid o p = (Some h, p))
  /\ (StreamPool.has vid p = true ->
      StreamPool.subscribe vid cid o p = (StreamPool.get vid p, p)
      /\ StreamPool.heap (StreamPool.subscribe vid cid o p).2
         = StreamPool.heap p)
  /\ (let first := StreamPool.subscribe vid cid o p in
      StreamPool.subscribe vid cid' o' first.2 = (first.1, first.2))
  /\ StreamPool.pool_ok p
  /\ (forall vid1 vid2 h1 h2 mc1 mc2,
        StreamPool.pool p !! vid1 = Some h1 ->
        StreamPool.pool p !! vid2 = Some h2 ->
        StreamPool.heap p !! h1 = Some mc1 ->
        StreamPool.heap p !! h2 = Some mc2 ->
        Masterchat.videoId mc1 = Masterchat.videoId mc2 ->
        vid1 = vid2 /\ h1 = h2).
Proof.
  intros Hreach. pose proof (pool_ok_reachable p Hreach) as Hok.
  split; [|split; [|split; [|split]]].
  - intros h Hlk. now apply subscribe_registered.
  - intros Hhas. unfold StreamPool.subscribe. now rewrite Hhas.
  - cbn zeta.
    destruct (StreamPool.pool p !! vid) as [h|] eqn:Hlk.
    + rewrite (subscribe_registered vid cid o p h Hlk). cbn [fst snd].
      now apply subscribe_registered.
    + destruct (subscribe_fresh vid cid o p Hlk) as (mc & Hv & ->).
      cbn [fst snd]. apply subscribe_registered. cbn.
      apply lookup_insert_eq.
  - exact Hok.
  - intros vid1 vid2 h1 h2 mc1 mc2 Hl1 Hl2 Hh1 Hh2 Hv.
    destruct (Hok vid1 h1 Hl1) as (mc1' & Hmc1 & Hv1).
    destruct (Hok vid2 h2 Hl2) as (mc2' & Hmc2 & Hv2).
    assert (Hvid : vid1 = vid2) by congruence.
    split; [exact Hvid|congruence].
Qed.

End PoolFacts.

Lemma subscribe_single_instance_witness :
  let o := Masterchat.mkIterate None None None in
  let p := StreamPool.run [StreamPool.Subscribe "v" "c" o]
             (StreamPool.new (Masterchat.mkOptions None)) in
  StreamPool.reachable p
  /\ StreamPool.pool p !! "v" = Some 0%nat
  /\ StreamPool.subscribe "v" "c" o p = (Some 0%nat, p)
  /\ length (StreamPool.heap p) = 1%nat.
Proof.
  intros o p.
  assert (Hr : StreamPool.reachable p)
    by (exists (Masterchat.mkOptions None), [StreamPool.Subscribe "v" "c" o];
        reflexivity).
  assert (Hl : StreamPool.pool p !! "v" = Some 0%nat)
    by (vm_compute; reflexivity).
  split; [exact Hr|].
  split; [exact Hl|].
  split; [|reflexivity].
  exact (proj1 (subscribe_single_instance p "v" "c" "c" o o Hr) 0%nat Hl).
Defined.

(** * Further properties of the code *)

(** ** ProtoBufReader: cursor discipline *)

Lemma read_keeps_buffer (op : Reads.ReadOp) (r : t) :
  buf (Reads.read op r) = buf r /\ s (Reads.read op r) = s r.
Proof.
  destruct op as [n| | |]; cbn [Reads.read];
    unfold eat, eatUInt32, eatUInt64, eatVariant;
    destruct (isEnded r); try (split; reflexivity);
    try (destruct (readUIntLE _ _ _); split; reflexivity).
Qed.

Lemma reads_keep_buffer (ops : list Reads.ReadOp) :
  forall r, buf (Reads.reads ops r) = buf r /\ s (Reads.reads ops r) = s r.
Proof.
  induction ops as [|op ops IH]; intros r; [split; reflexivity|].
  cbn [Reads.reads fold_left]. fold (Reads.reads ops (Reads.read op r)).
  destruct (IH (Reads.read op r)) as [-> ->]. apply read_keeps_buffer.
Qed.

(** X1: whatever is read after [save()], in any number and order of
    [eat], [eatUInt32], [eatUInt64] and [eatVariant] calls, failing or not,
    [rewind()] without argument puts the reader back exactly where it was
    saved: the reads change neither the buffer nor the saved position. *)
Theorem rewind_restores_saved_position (ops : list Reads.ReadOp) (r : t) :
  rewind None (Reads.reads ops (save r)) = save r
  /\ c (rewind None (Reads.reads ops (save r))) = c r
  /\ buf (Reads.reads ops (save r)) = buf r.
Proof.
  destruct (reads_keep_buffer ops (save r)) as [Hb Hs].
  unfold rewind, set_c. rewrite Hb, Hs. cbn [save buf s c]. auto.
Qed.

Lemma slice_append (bs : list byte) (x y z : Z) :
  0 <= x <= y -> y <= z ->
  slice bs x y ++ slice bs y z = slice bs x z.
Proof.
  intros Hxy Hyz. unfold slice, clamp_index.
  destruct (Z.ltb_spec x 0); [lia|].
  destruct (Z.ltb_spec y 0); [lia|].
  destruct (Z.ltb_spec z 0); [lia|].
  set (len := Z.of_nat (length bs)).
  set (X := Z.to_nat (Z.min x len)).
  replace (Z.to_nat (Z.min y len))
    with (X + Z.to_nat (Z.min y len - Z.min x len))%nat by (subst X; lia).
  rewrite <- drop_drop, take_take_drop. f_equal. lia.
Qed.

(** X2: two consecutive [eat] calls read what one call for the sum of the
    sizes reads: the slices they return concatenate to the slice of the
    single call and the reader ends in the same state, provided the first
    call does not stop exactly at the end of the buffer (where the second
    would return null). *)
Theorem eat_composes (r : t) (a b : Z) :
  0 <= c r -> 0 <= a -> 0 <= b ->
  isEnded r = false ->
  c r + a <> Z.of_nat (length (buf r)) ->
  exists s1 s2 r1 r2,
    eat a r = (Some s1, r1)
    /\ eat b r1 = (Some s2, r2)
    /\ eat (a + b) r = (Some (s1 ++ s2), r2).
Proof.
  intros Hc Ha Hb Hend Hmid.
  exists (slice (buf r) (c r) (c r + a)),
         (slice (buf r) (c r + a) (c r + a + b)),
         (set_c r (c r + a)), (set_c r (c r + a + b)).
  unfold eat. rewrite Hend.
  rewrite (isEnded_false (set_c r (c r + a))) by exact Hmid.
  cbn [buf c set_c s].
  rewrite slice_append by lia.
  repeat split. now rewrite Z.add_assoc.
Qed.

Lemma eat_composes_witness :
  exists s1 s2 r1 r2,
    eat 1 (new [x08; x01; x02; x03]) = (Some s1, r1)
    /\ eat 2 r1 = (Some s2, r2)
    /\ eat (1 + 2) (new [x08; x01; x02; x03]) = (Some (s1 ++ s2), r2).
Proof.
  apply (eat_composes (new [x08; x01; x02; x03]) 1 2);
    first [simpl; lia | reflexivity | discriminate].
Defined.

Lemma le_value_range (bs : list byte) :
  0 <= le_value bs < 256 ^ Z.of_nat (length bs).
Proof.
  induction bs as [|b bs IH]; [simpl; lia|].
  cbn [le_value length]. rewrite Nat2Z.inj_succ, Z.pow_succ_r by lia.
  pose proof (u8_range b). lia.
Qed.

Lemma readUIntLE_in_range (w : nat) (bs : list byte) (offset : Z) :
  0 <= offset -> offset + Z.of_nat w <= Z.of_nat (length bs) ->
  readUIntLE (Z.of_nat w) bs offset
  = Ret (le_value (slice bs offset (offset + Z.of_nat w)))
  /\ 0 <= le_value (slice bs offset (offset + Z.of_nat w)) < 256 ^ Z.of_nat w.
Proof.
  intros Ho Hw.
  assert (Hs : slice bs offset (offset + Z.of_nat w)
               = firstn w (skipn (Z.to_nat offset) bs)).
  { unfold slice, clamp_index.
    destruct (Z.ltb_spec offset 0); [lia|].
    destruct (Z.ltb_spec (offset + Z.of_nat w) 0); [lia|].
    rewrite !Z.min_l by lia. f_equal. lia. }
  split.
  - unfold readUIntLE.
    destruct (Z.ltb_spec offset 0); [lia|].
    destruct (Z.ltb_spec (Z.of_nat (length bs)) (offset + Z.of_nat w));
      [lia|].
    simpl. now rewrite Hs, Nat2Z.id.
  - pose proof (le_value_range (slice bs offset (offset + Z.of_nat w))) as Hr.
    rewrite Hs in *. rewrite length_take, length_drop in Hr.
    replace (w `min` (length bs - Z.to_nat offset))%nat with w in Hr by lia.
    exact Hr.
Qed.

Lemma readUIntLE_out_of_range (w : Z) (bs : list byte) (offset : Z) :
  offset < 0 \/ Z.of_nat (length bs) < offset + w ->
  readUIntLE w bs offset = Raise RangeError.
Proof.
  intros Ho. unfold readUIntLE.
  destruct (Z.ltb_spec offset 0); [reflexivity|].
  destruct (Z.ltb_spec (Z.of_nat (length bs)) (offset + w)); [reflexivity|].
  lia.
Qed.

(** X3: with at least four (eight) bytes left, [eatUInt32] ([eatUInt64])
    returns the little-endian value of the next four (eight) bytes, a number
    below 2^32 (2^64), and moves the cursor by exactly four (eight); with
    fewer bytes left, but not at the end of the buffer, it raises a
    [RangeError] and leaves the reader where it was. *)
Theorem fixed_width_reads (r : t) :
  0 <= c r ->
  (c r + 4 <= Z.of_nat (length (buf r)) ->
   eatUInt32 r
   = (Ret (Some (le_value (slice (buf r) (c r) (c r + 4)))),
      set_c r (c r + 4))
   /\ 0 <= le_value (slice (buf r) (c r) (c r + 4)) < 2 ^ 32)
  /\ (c r + 8 <= Z.of_nat (length (buf r)) ->
      eatUInt64 r
      = (Ret (Some (le_value (slice (buf r) (c r) (c r + 8)))),
         set_c r (c r + 8))
      /\ 0 <= le_value (slice (buf r) (c r) (c r + 8)) < 2 ^ 64)
  /\ (isEnded r = false -> Z.of_nat (length (buf r)) < c r + 4 ->
      eatUInt32 r = (Raise RangeError, r))
  /\ (isEnded r = false -> Z.of_nat (length (buf r)) < c r + 8 ->
      eatUInt64 r = (Raise RangeError, r)).
Proof.
  intros Hc. split; [|split; [|split]].
  - intros Hlen.
    destruct (readUIntLE_in_range 4 (buf r) (c r) Hc Hlen) as [Hread Hrange].
    split; [|exact Hrange].
    unfold eatUInt32. rewrite isEnded_false by lia.
    change 4 with (Z.of_nat 4) at 1. now rewrite Hread.
  - intros Hlen.
    destruct (readUIntLE_in_range 8 (buf r) (c r) Hc Hlen) as [Hread Hrange].
    split; [|exact Hrange].
    unfold eatUInt64. rewrite isEnded_false by lia.
    change 8 with (Z.of_nat 8) at 1. now rewrite Hread.
  - intros Hend Hlen. unfold eatUInt32. rewrite Hend.
    now rewrite readUIntLE_out_of_range by lia.
  - intros Hend Hlen. unfold eatUInt64. rewrite Hend.
    now rewrite readUIntLE_out_of_range by lia.
Qed.

Lemma fixed_width_reads_witness :
  0 <= c (mk [x08; x78; x56; x34; x12; x01] 1 0)
  /\ eatUInt32 (mk [x08; x78; x56; x34; x12; x01] 1 0)
     = (Ret (Some 305419896), mk [x08; x78; x56; x34; x12; x01] 5 0)
  /\ eatUInt64 (mk [x08; x78; x56; x34; x12; x01] 1 0)
     = (Raise RangeError, mk [x08; x78; x56; x34; x12; x01] 1 0).
Proof.
  split; [simpl; lia|].
  pose proof (fixed_width_reads (mk [x08; x78; x56; x34; x12; x01] 1 0)
                ltac:(simpl; lia)) as (H32 & _ & _ & H64).
  split.
  - exact (proj1 (H32 ltac:(simpl; lia))).
  - exact (H64 eq_refl ltac:(simpl; lia)).
Defined.

Lemma skip_continuation_lower (bs : list byte) (fuel : nat) :
  forall cur, cur <= skip_continuation fuel bs cur.
Proof.
  induction fuel as [|f IH]; intros cur; simpl; [lia|].
  destruct (land_at bs cur 128 =? 0); [lia|].
  specialize (IH (cur + 1)). lia.
Qed.

Lemma varint_value_range (bs : list byte) :
  0 <= varint_value bs < 2 ^ (7 * Z.of_nat (length bs)).
Proof.
  induction bs as [|b bs IH]; [simpl; lia|].
  cbn [varint_value length].
  replace (7 * Z.of_nat (S (length bs)))
    with (7 + 7 * Z.of_nat (length bs)) by lia.
  rewrite Z.pow_add_r by lia. change (2 ^ 7) with 128.
  pose proof (Z.mod_pos_bound (u8 b) 128 ltac:(lia)). nia.
Qed.

Lemma length_slice (bs : list byte) (x y : Z) :
  0 <= x -> 0 <= y -> Z.of_nat (length (slice bs x y)) <= Z.max 0 (y - x).
Proof.
  intros Hx Hy. unfold slice, clamp_index.
  destruct (Z.ltb_spec x 0); [lia|].
  destruct (Z.ltb_spec y 0); [lia|].
  rewrite length_take, length_drop. lia.
Qed.

(** X4: on a reader that is not at the end of its buffer, [eatVariant]
    always returns a number, never null, the number is not negative, and the
    cursor moves forward by at least one byte; the number is below 2^(7k)
    when the cursor moved by k.  So a loop of [eatVariant] calls makes
    progress on every turn. *)
Theorem eatVariant_makes_progress (r : t) :
  isEnded r = false -> 0 <= c r ->
  exists v r',
    eatVariant r = (Some v, r')
    /\ 0 <= v < 2 ^ (7 * (c r' - c r))
    /\ c r < c r'
    /\ buf r' = buf r /\ s r' = s r.
Proof.
  intros Hend Hc. unfold eatVariant. rewrite Hend.
  set (c1 := skip_continuation (S (length (buf r))) (buf r) (c r)).
  pose proof (skip_continuation_lower (buf r) (S (length (buf r))) (c r))
    as Hlow. fold c1 in Hlow.
  eexists _, _. split; [reflexivity|].
  cbn [c buf s set_c]. rewrite parseVariant_value.
  pose proof (varint_value_range (slice (buf r) (c r) (c1 + 1))) as [H0 Hv].
  pose proof (length_slice (buf r) (c r) (c1 + 1) Hc ltac:(lia)) as Hlen.
  repeat split; try lia.
  eapply Z.lt_le_trans; [exact Hv|].
  apply Z.pow_le_mono_r; lia.
Qed.

Lemma eatVariant_makes_progress_witness :
  exists v r',
    eatVariant (mk [x08; xac; x02; x80] 1 0) = (Some v, r')
    /\ 0 <= v < 2 ^ (7 * (c r' - 1))
    /\ 1 < c r'
    /\ buf r' = [x08; xac; x02; x80] /\ s r' = 0.
Proof.
  exact (eatVariant_makes_progress (mk [x08; xac; x02; x80] 1 0)
           eq_refl ltac:(simpl; lia)).
Defined.

(** X5: [splitHeader] takes a header apart without loss, for every
    integer: the wire type lies between 0 and 7 and
    [n = 8 * field_number + wire_type]; conversely the header
    [8 * f + w] with [w] between 0 and 7 splits into [f] and [w]. *)
Theorem splitHeader_decomposes (n f w : Z) :
  0 <= w < 8 ->
  n = 8 * fst (splitHeader n) + snd (splitHeader n)
  /\ 0 <= snd (splitHeader n) < 8
  /\ splitHeader (8 * f + w) = (f, w).
Proof.
  intros Hw.
  assert (Hsplit : forall m, splitHeader m = (m / 8, m mod 8)).
  { intros m. unfold splitHeader.
    rewrite Z.shiftr_div_pow2 by lia. change 7 with (Z.ones 3).
    now rewrite Z.land_ones by lia. }
  rewrite !Hsplit. cbn [fst snd].
  split; [apply Z.div_mod; lia|].
  split; [apply Z.mod_pos_bound; lia|].
  f_equal.
  - rewrite Z.mul_comm, Z.div_add_l by lia. rewrite Z.div_small by lia. lia.
  - rewrite Z.add_comm, Z.mul_comm, Z.mod_add by lia. now apply Z.mod_small.
Qed.

Lemma splitHeader_decomposes_witness :
  0 <= 2 < 8 /\ splitHeader (8 * 15 + 2) = (15, 2)
  /\ (-3) = 8 * fst (splitHeader (-3)) + snd (splitHeader (-3)).
Proof.
  split; [lia|].
  pose proof (splitHeader_decomposes (-3) 15 2 ltac:(lia)) as (Hneg & _ & Hs).
  exact (conj Hs Hneg).
Defined.

Lemma read_forward (op : Reads.ReadOp) (r : t) :
  Reads.forward op -> Z.of_nat (length (buf r)) < c r ->
  Z.of_nat (length (buf (Reads.read op r))) < c (Reads.read op r).
Proof.
  intros Hop Hc.
  destruct (read_keeps_buffer op r) as [-> _].
  assert (Hend : isEnded r = false) by (apply isEnded_false; lia).
  destruct op as [n| | |]; cbn [Reads.read Reads.forward] in *;
    unfold eat, eatUInt32, eatUInt64, eatVariant; rewrite Hend.
  - cbn [snd c set_c]. lia.
  - rewrite readUIntLE_out_of_range by lia. exact Hc.
  - rewrite readUIntLE_out_of_range by lia. exact Hc.
  - cbn [snd c set_c].
    pose proof (skip_continuation_lower (buf r) (S (length (buf r))) (c r)).
    lia.
Qed.

(** X6: once the cursor has moved past the end of the buffer (as [eat]
    does when asked for more than is left), no sequence of forward reads
    brings it back: the reader never reports the end again, [eat] and
    [eatVariant] never return null again, and [remainingBytes] stays
    negative. *)
Theorem overrun_is_permanent (ops : list Reads.ReadOp) (r : t) (n : Z) :
  Z.of_nat (length (buf r)) < c r ->
  Forall Reads.forward ops ->
  let r' := Reads.reads ops r in
  isEnded r' = false
  /\ remainingBytes r' < 0
  /\ fst (eat n r') <> None
  /\ fst (eatVariant r') <> None.
Proof.
  intros Hc Hops.
  assert (Hpast : Z.of_nat (length (buf (Reads.reads ops r)))
                  < c (Reads.reads ops r)).
  { revert r Hc. induction Hops as [|op ops Hop Hops IH]; intros r Hc;
      [exact Hc|].
    cbn [Reads.reads fold_left]. apply IH. now apply read_forward. }
  cbn zeta.
  assert (Hend : isEnded (Reads.reads ops r) = false)
    by (apply isEnded_false; lia).
  split; [exact Hend|].
  split; [unfold remainingBytes; lia|].
  unfold eat, eatVariant. rewrite Hend. split; discriminate.
Qed.

Lemma overrun_is_permanent_witness :
  let r := snd (eat 5 (new [x01; x02])) in
  Z.of_nat (length (buf r)) < c r
  /\ isEnded (Reads.reads [Reads.EatVariant; Reads.Eat 0; Reads.EatUInt32] r)
     = false.
Proof.
  split; [simpl; lia|].
  exact (proj1 (overrun_is_permanent
                  [Reads.EatVariant; Reads.Eat 0; Reads.EatUInt32]
                  (snd (eat 5 (new [x01; x02]))) 0 ltac:(simpl; lia)
                  ltac:(repeat constructor; simpl; lia))).
Defined.

(** ** fetch: cancellation, effort, requests *)

Section FetchMore.
Context `{Decoder}.
Import Fetch.

(** X7: a request that settles as aborted makes [fetch] raise an
    [AbortError] at once, whatever is left of the retry budget: after any
    number of retried transient failures, no further request is made and no
    backoff wait is started. *)
Theorem fetch_abort_is_immediate
    (fails : list PostOutcome) (rest : list PostOutcome)
    (isLive : option bool) (tgt : Target) (arg : FetchArg) :
  Forall (fun o => transient o = true) fails ->
  (length fails <= 3)%nat ->
  exists eff,
    fetch (fails ++ Aborted :: rest) isLive tgt arg
    = Some (mkRun (Raise AbortError) isLive eff rest)
    /\ attempts eff = S (length fails)
    /\ delays eff = repeat 3000 (length fails).
Proof.
  intros Hf Hlen.
  exists (retry_trace (length fails) (init isLive tgt arg)).
  split; [|exact (attempts_retry_trace _ _)].
  unfold fetch. rewrite loop_retries.
  - reflexivity.
  - assumption.
  - change (retryRemaining (init isLive tgt arg)) with 3. lia.
Qed.

Lemma attempts_app (a b : list Effect) :
  attempts (a ++ b) = (attempts a + attempts b)%nat.
Proof. unfold attempts. now rewrite List.filter_app, length_app. Qed.

Lemma delays_app (a b : list Effect) : delays (a ++ b) = delays a ++ delays b.
Proof. unfold delays. apply omap_app. Qed.

(** The effort of the loop of [fetch] from a given state. *)
Lemma loop_effort (script : list PostOutcome) :
  forall (l : option bool) (st : FetchState) (eff : list Effect) (r : Run),
    0 <= retryRemaining st ->
    loop script l st eff = Some r ->
    exists k,
      (k <= Z.to_nat (retryRemaining st))%nat
      /\ delays (effects r) = delays eff ++ repeat retryInterval k
      /\ (attempts (effects r)
          = attempts eff + k + switches (effects r) - switches eff + 1)%nat
      /\ (switches eff <= switches (effects r))%nat
      /\ (length script
          = attempts (effects r) - attempts eff + length (rest r))%nat.
Proof.
  induction script as [|o script IH]; intros l st eff r Hr; [discriminate|].
  cbn [loop].
  destruct (turn o l st) as [[res|e|st'|st'] l'] eqn:Ht.
  - intros [= <-]. exists 0%nat. cbn [effects rest repeat].
    rewrite attempts_app, delays_app, switches_app.
    cbn. rewrite ?app_nil_r. repeat split; lia.
  - intros [= <-]. exists 0%nat. cbn [effects rest repeat].
    rewrite attempts_app, delays_app, switches_app.
    cbn. rewrite ?app_nil_r. repeat split; lia.
  - apply (proj1 (turn_continues o l l' st st')) in Ht as (Hpos & Hst' & ->).
    intros Hloop. apply IH in Hloop as (k & Hk & Hd & Ha & Hs & Hlen);
      [|lia].
    rewrite !attempts_app, !switches_app in *.
    rewrite !delays_app in Hd. cbn in *.
    exists (S k). rewrite Hd. repeat split; try lia.
    rewrite <- !app_assoc. cbn. now rewrite repeat_cons.
  - apply (proj2 (turn_continues o l l' st st')) in Ht as (-> & -> & Hst').
    intros Hloop. apply IH in Hloop as (k & Hk & Hd & Ha & Hs & Hlen);
      [|lia].
    rewrite !attempts_app, !switches_app in *.
    rewrite !delays_app in Hd. cbn in *.
    exists k. rewrite Hd, ?app_nil_r. repeat split; lia.
Qed.

(** X8: no call of [fetch] makes more than 5 requests (4 when the mode is
    committed) or waits more than 3 times, each wait being the fixed 3000
    ms; it consumes exactly one request outcome per request. *)
Theorem fetch_effort_is_bounded (script : list PostOutcome)
    (isLive : option bool) (tgt : Target) (arg : FetchArg) (r : Run) :
  fetch script isLive tgt arg = Some r ->
  (1 <= attempts (effects r) <= 5)%nat
  /\ (isLive <> None -> attempts (effects r) <= 4)%nat
  /\ (exists k, (k <= 3)%nat /\ delays (effects r) = repeat 3000 k)
  /\ (attempts (effects r) = S (length (delays (effects r))
                                + switches (effects r)))%nat
  /\ length script = (attempts (effects r) + length (rest r))%nat.
Proof.
  intros Hf. unfold fetch in Hf.
  pose proof (loop_budget script isLive _ [] r Hf) as Hb.
  apply loop_effort in Hf as (k & Hk & Hd & Ha & Hs & Hlen);
    [|change (retryRemaining (init isLive tgt arg)) with 3; lia].
  change (retryRemaining (init isLive tgt arg)) with 3 in Hk.
  change (attempts []) with 0%nat in *. change (switches []) with 0%nat in *.
  cbn [delays omap list_omap app] in Hd.
  assert (Hsw : (switches (effects r) <= Masterchat.unknown isLive)%nat)
    by lia.
  assert (Hone : (Masterchat.unknown isLive <= 1)%nat)
    by (destruct isLive; simpl; lia).
  split; [lia|].
  split; [intros Hl; destruct isLive; [simpl in Hsw; lia|congruence]|].
  split; [exists k; split; [lia|exact Hd]|].
  split; [rewrite Hd, repeat_length; lia|lia].
Qed.

End FetchMore.

Lemma fetch_abort_is_immediate_witness :
  let fails := [Rejected "a"; Rejected "b"] in
  Forall (fun o => Fetch.transient o = true) fails
  /\ (length fails <= 3)%nat
  /\ exists eff,
       Fetch.fetch (fails ++ Aborted :: [Rejected "c"]) None
         (mkTarget "c" "v") (Options None)
       = Some (Fetch.mkRun (Raise AbortError) None eff [Rejected "c"])
       /\ Fetch.attempts eff = 3%nat
       /\ Fetch.delays eff = [3000; 3000].
Proof.
  intros fails.
  assert (Hf : Forall (fun o => Fetch.transient o = true) fails)
    by (repeat constructor).
  assert (Hl : (length fails <= 3)%nat) by (simpl; lia).
  split; [exact Hf|]. split; [exact Hl|].
  exact (fetch_abort_is_immediate fails [Rejected "c"] None
           (mkTarget "c" "v") (Options None) Hf Hl).
Defined.

Lemma fetch_effort_is_bounded_witness :
  let script := [Rejected "a"; Rejected "b"; Rejected "c"; Rejected "d";
                 Rejected "e"] in
  exists r,
    Fetch.fetch script None (mkTarget "c" "v") (Options None) = Some r
    /\ (1 <= Fetch.attempts (Fetch.effects r) <= 5)%nat.
Proof.
  intros script.
  destruct (fetch_terminates script None (mkTarget "c" "v") (Options None)
              ltac:(simpl; lia)) as [r Hr].
  exists r. split; [exact Hr|].
  exact (proj1 (fetch_effort_is_bounded script None _ _ r Hr)).
Defined.

Section FetchRequests.
Context `{Decoder}.
Import Fetch.








(** X10: a response without error object and without continuation contents
    is classified by its text alone.  Text that says "currently
    unavailable" (and does not say "disabled") raises a [MembersOnlyError]
    at the first occurrence, in every mode and with the retry budget
    untouched; a text that says "disabled" takes precedence over it; any
    other text, or no text at all, means that the stream has ended: [fetch]
    returns an empty batch without continuation. *)
Theorem fetch_classifies_contentless (r : YTChatResponse)
    (rest : list PostOutcome) (isLive : option bool) (b : bool)
    (tgt : Target) (arg : FetchArg) :
  error r = None -> continuationContents r = None ->
  let st := init isLive tgt arg in
  let one := [Post (requestUrl st) (requestBody st)] in
  (forall reason,
     contents r = Some reason -> test "disabled" reason = false ->
     test "currently unavailable" reason = true ->
     fetch (Responded r :: rest) isLive tgt arg
     = Some (mkRun (Raise (MembersOnlyError reason)) isLive one rest))
  /\ (forall reason,
        contents r = Some reason -> test "disabled" reason = true ->
        fetch (Responded r :: rest) (Some b) tgt arg
        = Some (mkRun (Raise (DisabledChatError reason)) (Some b)
                  [Post (requestUrl (init (Some b) tgt arg))
                        (requestBody (init (Some b) tgt arg))] rest))
  /\ ((contents r = None
       \/ exists reason,
            contents r = Some reason /\ test "disabled" reason = false
            /\ test "currently unavailable" reason = false) ->
      fetch (Responded r :: rest) isLive tgt arg
      = Some (mkRun (Ret (mkChat [] None)) isLive one rest)).
Proof.
  intros He Hc st one.
  assert (Hturn : forall l st0,
             turn (Responded r) l st0 = after_try l r st0).
  { intros l st0. unfold turn, try_block. now rewrite He. }
  split; [|split].
  - intros reason Hr Hd Hu. unfold fetch. cbn [loop]. rewrite Hturn.
    unfold after_try. now rewrite Hc, Hr, Hd, Hu.
  - intros reason Hr Hd. unfold fetch. cbn [loop]. rewrite Hturn.
    unfold after_try. now rewrite Hc, Hr, Hd.
  - intros Hcase. unfold fetch. cbn [loop]. rewrite Hturn.
    unfold after_try. rewrite Hc.
    destruct Hcase as [-> | (reason & -> & -> & ->)]; reflexivity.
Qed.

End FetchRequests.


Lemma fetch_classifies_contentless_witness :
  let r := mkResponse None None
             (Some "Sorry, live chat is currently unavailable") false in
  error r = None /\ continuationContents r = None
  /\ Fetch.fetch [Responded r] None (mkTarget "c" "v") (Options None)
     = Some (Fetch.mkRun
               (Raise (MembersOnlyError
                         "Sorry, live chat is currently unavailable"))
               None [Post EP_GLC (Lrc (mkTarget "c" "v") false)] []).
Proof.
  intros r. split; [reflexivity|]. split; [reflexivity|].
  exact (proj1 (fetch_classifies_contentless r [] None true
                  (mkTarget "c" "v") (Options None) eq_refl eq_refl)
           _ eq_refl eq_refl eq_refl).
Defined.

(** ** Sessions: mode, error events, restart *)

Section SessionMore.
Context `{Decoder}.
Import Masterchat.

Ltac walk :=
  repeat match goal with
    | |- context [if ?b then _ else _] => destruct b eqn:?
    | |- context [match ?x with _ => _ end] => destruct x eqn:?
    end.

Lemma isLive_interrupt (ls : list (Frame * Phase)) (s : t) :
  isLive
    (fold_right
       (fun l acc =>
          match snd l with
          | AwaitDelay _ _ =>
              if signal_aborted (signal (fst l)) acc
              then finish (fst l) (Raise AbortError) acc
              else acc
          | _ => acc
          end) s ls)
  = isLive s.
Proof.
  induction ls as [|l ls IH]; [reflexivity|]. cbn [fold_right].
  destruct (snd l); try exact IH.
  destruct (signal_aborted _ _); [|exact IH].
  rewrite <- IH. reflexivity.
Qed.

(** A step leaves the mode alone or takes it from unknown to replay. *)
Lemma isLive_step (i : Input) (s : t) :
  isLive (step i s) = isLive s
  \/ (isLive s = None /\ isLive (step i s) = Some false).
Proof.
  destruct i as [o| |p o now|p|p now]; cbn [step].
  - left. unfold listen. walk; reflexivity.
  - left. unfold stop, interrupt. destruct (listener s); [|reflexivity].
    now rewrite isLive_interrupt.
  - unfold on_post_settled.
    destruct (find_loop p s) as [[f [ctl st|st|res startMs|ms tok]]|];
      try (left; reflexivity).
    destruct (Fetch.turn _ _ _) as [fs l] eqn:Ht.
    apply turn_mode in Ht.
    destruct fs as [res|e|st'|st'].
    + left. subst l. unfold fetched, after_yield. walk; reflexivity.
    + left. subst l. reflexivity.
    + left. subst l. reflexivity.
    + right. destruct Ht as [Hl ->]. split; [exact Hl|reflexivity].
  - left. unfold on_timer. walk; reflexivity.
  - left. unfold on_resumed, after_yield. walk; reflexivity.
Qed.

(** X11: once the mode of a session is committed, by the constructor or by
    the fallback, nothing that [listen], [stop] or the polling loop does
    changes it again: it never returns to unknown and never flips between
    live and replay. *)
Theorem committed_mode_is_stable (ins : list Input) (s : t) (b : bool) :
  isLive s = Some b -> isLive (run ins s) = Some b.
Proof.
  revert s. induction ins as [|i ins IH]; intros s Hs; [exact Hs|].
  cbn [run fold_left]. apply IH.
  destruct (isLive_step i s) as [-> | [Hn _]]; [exact Hs|congruence].
Qed.

End SessionMore.

Lemma committed_mode_is_stable_witness :
  let disabled :=
    Responded (mkResponse None None
                 (Some "Chat is disabled for this live stream.") false) in
  let s := Masterchat.new "v" "c" (Masterchat.mkOptions (Some Masterchat.live)) in
  Masterchat.isLive s = Some true
  /\ Masterchat.isLive
       (Masterchat.run
          [Masterchat.Listen (Masterchat.mkIterate None None None);
           Masterchat.PostSettled 2 disabled 0; Masterchat.Stop] s)
     = Some true.
Proof.
  intros disabled s. split; [reflexivity|].
  exact (committed_mode_is_stable _ s true eq_refl).
Defined.

Section SessionRecord.
Context `{Decoder}.
Import Masterchat.

Ltac walk :=
  repeat match goal with
    | |- context [if ?b then _ else _] => destruct b eqn:?
    | |- context [match ?x with _ => _ end] => destruct x eqn:?
    end.

Lemma accounted_refl (s : t) : Record.accounted s s.
Proof. exists [], []. now rewrite !app_nil_r. Qed.

Lemma accounted_same (s0 s s' : t) :
  emitted s' = emitted s -> settled s' = settled s ->
  Record.accounted s0 s -> Record.accounted s0 s'.
Proof. intros He Hs (evs & rs & H1 & H2 & H3). exists evs, rs. now rewrite He, Hs. Qed.

Lemma errors_app (a b : list Event) :
  Record.errors (a ++ b) = Record.errors a ++ Record.errors b.
Proof. apply omap_app. Qed.

Lemma failures_app (a b : list (nat * outcome unit)) :
  Record.failures (a ++ b) = Record.failures a ++ Record.failures b.
Proof. apply omap_app. Qed.

Lemma accounted_emit (s0 s s' : t) (new : list Event) :
  emitted s' = emitted s ++ new -> Record.errors new = [] ->
  settled s' = settled s ->
  Record.accounted s0 s -> Record.accounted s0 s'.
Proof.
  intros He Hn Hs (evs & rs & H1 & H2 & H3).
  exists (evs ++ new), rs. rewrite He, Hs, H1, <- app_assoc.
  repeat split; [assumption|].
  now rewrite errors_app, Hn, app_nil_r.
Qed.

Lemma accounted_finish (s0 s : t) (f : Frame) (r : outcome unit) :
  Record.accounted s0 s -> Record.accounted s0 (finish f r s).
Proof.
  intros (evs & rs & H1 & H2 & H3).
  exists (evs ++ match r with
                 | Ret _ => [EvEnd]
                 | Raise e => if is_AbortError e then [] else [EvError e]
                 end),
         (rs ++ [(promise f, r)]).
  cbn [finish emitted settled set_listener emit settle set_loops].
  rewrite H1, H2, <- !app_assoc.
  repeat split.
  rewrite errors_app, failures_app, H3. f_equal.
  destruct r as [[]|e]; [reflexivity|].
  cbn. destruct (is_AbortError e); reflexivity.
Qed.

Lemma errors_batch (res : ChatResponse) (s : t) :
  Record.errors (batch_events res s) = [].
Proof.
  unfold batch_events. destruct (0 <? chatsListenerCount s)%nat; reflexivity.
Qed.

Ltac account :=
  unfold call_fetch, post;
  repeat first
    [ assumption
    | apply accounted_refl
    | apply accounted_finish
    | eapply accounted_same; [reflexivity|reflexivity|] ].

Lemma accounted_after_yield (s0 s : t) (f : Frame) (res : ChatResponse)
    (startMs now : Z) :
  Record.accounted s0 s ->
  Record.accounted s0 (after_yield f res startMs now s).
Proof. intros Hs. unfold after_yield. walk; account. Qed.

Lemma accounted_fetched (s0 s : t) (f : Frame) (res : ChatResponse)
    (now : Z) :
  Record.accounted s0 s -> Record.accounted s0 (fetched f res now s).
Proof.
  intros Hs. unfold fetched. destruct (negb _).
  - eapply accounted_emit; [reflexivity|apply errors_batch|reflexivity|].
    exact Hs.
  - now apply accounted_after_yield.
Qed.

Lemma accounted_interrupt (s0 : t) (ls : list (Frame * Phase)) (s : t) :
  Record.accounted s0 s ->
  Record.accounted s0
    (fold_right
       (fun l acc =>
          match snd l with
          | AwaitDelay _ _ =>
              if signal_aborted (signal (fst l)) acc
              then finish (fst l) (Raise AbortError) acc
              else acc
          | _ => acc
          end) s ls).
Proof.
  intros Hs. induction ls as [|l ls IH]; [exact Hs|]. cbn [fold_right].
  destruct (snd l); try exact IH.
  destruct (signal_aborted _ _); [|exact IH].
  now apply accounted_finish.
Qed.

Lemma accounted_step (s0 : t) (i : Input) (s : t) :
  Record.accounted s0 s -> Record.accounted s0 (step i s).
Proof.
  intros Hs. destruct i as [o| |p o now|p|p now]; cbn [step].
  - unfold listen. walk; cbn [snd]; account.
  - unfold stop, interrupt. destruct (listener s); [|exact Hs].
    apply accounted_interrupt.
    eapply accounted_emit; [reflexivity|reflexivity|reflexivity|exact Hs].
  - unfold on_post_settled.
    destruct (find_loop p s) as [[f [ctl st|st|res startMs|ms tok]]|];
      try exact Hs.
    destruct (Fetch.turn _ _ _) as [[res|e|st'|st'] l].
    + apply accounted_fetched. account.
    + account.
    + account.
    + account.
  - unfold on_timer. walk; account.
  - unfold on_resumed. walk; try exact Hs.
    now apply accounted_after_yield.
Qed.

(** X12: the error events a session emits are exactly, and in order, the
    errors its polling loops ended with, the [AbortError] of a cancellation
    excepted: no failure of a loop is lost, none is reported twice, and no
    error event is emitted while a loop goes on. *)
Theorem error_events_are_loop_failures (ins : list Input) (vid cid : string)
    (o : MasterchatOptions) :
  Record.errors (emitted (run ins (new vid cid o)))
  = Record.failures (settled (run ins (new vid cid o))).
Proof.
  assert (Hrun : forall s0 s, Record.accounted s0 s ->
                              Record.accounted s0 (run ins s)).
  { induction ins as [|i ins IH]; intros s0 s Hs; [exact Hs|].
    cbn [run fold_left]. apply IH. now apply accounted_step. }
  destruct (Hrun (new vid cid o) (new vid cid o) (accounted_refl _))
    as (evs & rs & He & Hs & Hacc).
  rewrite He, Hs. exact Hacc.
Qed.



End SessionRecord.



Section FirstResponse.
Context `{Decoder}.
Import Masterchat.


End FirstResponse.


(** ** StreamPool: registration, relay, isolation *)

Section PoolMore.
Context `{Decoder}.

(** What the handlers of the pool do with a run of events of one
    session. *)
Lemma handlers_effect (mc : Masterchat.t) (evs : list Masterchat.Event) :
  forall p,
    let p' := fold_left (fun p e => StreamPool.handle mc e p) evs p in
    StreamPool.heap p' = StreamPool.heap p
    /\ StreamPool.options p' = StreamPool.options p
    /\ StreamPool.emitted p'
       = StreamPool.emitted p
         ++ map (Relay.relayed (Masterchat.metadata mc)) evs
    /\ StreamPool.pool p'
       = if existsb Relay.terminal evs
         then delete (Masterchat.videoId mc) (StreamPool.pool p)
         else StreamPool.pool p.
Proof.
  induction evs as [|e evs IH]; intros p.
  - cbn. rewrite app_nil_r. auto.
  - cbn [fold_left existsb map].
    destruct (IH (StreamPool.handle mc e p)) as (Hh & Ho & He & Hp).
    cbn zeta. rewrite Hh, Ho, He, Hp.
    destruct e; cbn [StreamPool.handle StreamPool.heap StreamPool.options
                     StreamPool.emitted StreamPool.pool Relay.terminal
                     Relay.relayed orb];
      rewrite <- ?app_assoc; repeat split;
      destruct (existsb Relay.terminal evs); try reflexivity;
      apply delete_delete_eq.
Qed.

Lemma step_extends_emitted (i : Masterchat.Input) (mc : Masterchat.t) :
  exists new,
    Masterchat.emitted (Masterchat.step i mc) = Masterchat.emitted mc ++ new.
Proof.
  destruct (accounted_step mc i mc (accounted_refl mc))
    as (evs & rs & He & _).
  now exists evs.
Qed.

(** What an event on session [h] does to the pool. *)
Lemma deliver_effect (h : nat) (i : Masterchat.Input) (p : StreamPool.t)
    (mc : Masterchat.t) :
  StreamPool.heap p !! h = Some mc ->
  exists new,
    Masterchat.emitted (Masterchat.step i mc) = Masterchat.emitted mc ++ new
    /\ StreamPool.heap (StreamPool.deliver h i p)
       = <[h := Masterchat.step i mc]> (StreamPool.heap p)
    /\ StreamPool.emitted (StreamPool.deliver h i p)
       = StreamPool.emitted p
         ++ map (Relay.relayed (Masterchat.metadata (Masterchat.step i mc)))
                new
    /\ StreamPool.pool (StreamPool.deliver h i p)
       = if existsb Relay.terminal new
         then delete (Masterchat.videoId mc) (StreamPool.pool p)
         else StreamPool.pool p.
Proof.
  intros Hh. destruct (step_extends_emitted i mc) as [new Hnew].
  exists new. split; [exact Hnew|].
  unfold StreamPool.deliver, StreamPool.relay. rewrite Hh, Hnew.
  rewrite drop_app_length.
  destruct (handlers_effect (Masterchat.step i mc) new
              (StreamPool.mk (StreamPool.pool p) (StreamPool.options p)
                 (StreamPool.started p)
                 (<[h:=Masterchat.step i mc]> (StreamPool.heap p))
                 (StreamPool.emitted p))) as (Hheap & _ & He & Hp).
  cbn zeta in *. rewrite Hheap, He, Hp, videoId_step. auto.
Qed.

(** X16: the pool hands on every event of its sessions: whatever happens
    to a session, each event the session emits, error events included, is
    emitted by the pool once, in the same order, with the metadata of that
    session, and the pool emits nothing else. *)
Theorem pool_relays_every_event (h : nat) (i : Masterchat.Input)
    (p : StreamPool.t) (mc : Masterchat.t) :
  StreamPool.heap p !! h = Some mc ->
  exists new,
    Masterchat.emitted (Masterchat.step i mc) = Masterchat.emitted mc ++ new
    /\ StreamPool.emitted (StreamPool.deliver h i p)
       = StreamPool.emitted p
         ++ map (Relay.relayed (Masterchat.metadata (Masterchat.step i mc)))
                new
    /\ Masterchat.m_videoId (Masterchat.metadata (Masterchat.step i mc))
       = Masterchat.videoId mc.
Proof.
  intros Hh.
  destruct (deliver_effect h i p mc Hh) as (new & Hnew & _ & He & _).
  exists new. repeat split; try assumption.
  cbn. apply videoId_step.
Qed.

(** X17: when a session emits an end or an error event its video id is
    removed from the registry, whichever session is registered under it at
    that moment; any other event leaves the registry as it is.  Other video
    ids are never affected. *)
Theorem terminal_event_unregisters (h : nat) (i : Masterchat.Input)
    (p : StreamPool.t) (mc : Masterchat.t) (vid : string) :
  StreamPool.heap p !! h = Some mc ->
  exists new,
    Masterchat.emitted (Masterchat.step i mc) = Masterchat.emitted mc ++ new
    /\ (existsb Relay.terminal new = true ->
        StreamPool.has (Masterchat.videoId mc) (StreamPool.deliver h i p)
        = false)
    /\ (existsb Relay.terminal new = false ->
        StreamPool.pool (StreamPool.deliver h i p) = StreamPool.pool p)
    /\ (vid <> Masterchat.videoId mc ->
        StreamPool.get vid (StreamPool.deliver h i p) = StreamPool.get vid p).
Proof.
  intros Hh.
  destruct (deliver_effect h i p mc Hh) as (new & Hnew & _ & _ & Hp).
  exists new. split; [exact Hnew|].
  unfold StreamPool.has, StreamPool.get. rewrite Hp.
  split; [|split].
  - intros ->. apply bool_decide_eq_false. rewrite lookup_delete_eq.
    intros [x Hx]. discriminate.
  - now intros ->.
  - intros Hne. destruct (existsb Relay.terminal new); [|reflexivity].
    now rewrite lookup_delete_ne.
Qed.


End PoolMore.

Lemma pool_relays_every_event_witness :
  let o := Masterchat.mkIterate None None None in
  let p := StreamPool.run [StreamPool.Subscribe "v" "c" o]
             (StreamPool.new (Masterchat.mkOptions None)) in
  let denied :=
    Responded (mkResponse (Some (PermissionDenied, "private")) None None
                 false) in
  exists mc,
    StreamPool.heap p !! 0%nat = Some mc
    /\ StreamPool.emitted
         (StreamPool.deliver 0 (Masterchat.PostSettled 2 denied 0) p)
       = [StreamPool.Error (NoPermissionError "private")
            (Masterchat.mkMetadata "v" "c" None None None)].
Proof.
  intros o p denied. eexists. split; [reflexivity|].
  destruct (pool_relays_every_event 0 (Masterchat.PostSettled 2 denied 0) p
              _ eq_refl) as (new & Hnew & He & _).
  rewrite He.
  assert (new = [Masterchat.EvError (NoPermissionError "private")])
    by (symmetry; exact Hnew).
  subst new. reflexivity.
Defined.

Lemma terminal_event_unregisters_witness :
  let o := Masterchat.mkIterate None None None in
  let p := StreamPool.run [StreamPool.Subscribe "v" "c" o]
             (StreamPool.new (Masterchat.mkOptions None)) in
  let denied :=
    Responded (mkResponse (Some (PermissionDenied, "private")) None None
                 false) in
  exists mc,
    StreamPool.heap p !! 0%nat = Some mc
    /\ StreamPool.has "v" p = true
    /\ StreamPool.has "v"
         (StreamPool.deliver 0 (Masterchat.PostSettled 2 denied 0) p)
       = false.
Proof.
  intros o p denied. eexists. split; [reflexivity|].
  split; [vm_compute; reflexivity|].
  destruct (terminal_event_unregisters 0
              (Masterchat.PostSettled 2 denied 0) p _ "v" eq_refl)
    as (new & Hnew & Hterm & _).
  apply Hterm.
  assert (new = [Masterchat.EvError (NoPermissionError "private")])
    by (symmetry; exact Hnew).
  subst new. reflexivity.
Defined.


Section PoolSubscribe.
Context `{Decoder}.

Lemma wf_fresh_session (vid cid : string) (o : Masterchat.MasterchatOptions) :
  Masterchat.wf (Masterchat.on_chats (Masterchat.new vid cid o)).
Proof. exact (wf_new vid cid o). Qed.

(** The session [subscribe] constructs and starts. *)
Lemma subscribed_session (vid cid : string)
    (io : Masterchat.IterateChatOptions) (o : Masterchat.MasterchatOptions) :
  let mc :=
    (Masterchat.listen io
       (Masterchat.on_chats (Masterchat.new vid cid o))).2 in
  Masterchat.videoId mc = vid
  /\ Masterchat.channelId mc = cid
  /\ Masterchat.isLive mc = Masterchat.isLive (Masterchat.new vid cid o)
  /\ Masterchat.listener mc <> None
  /\ Masterchat.chatsListenerCount mc = 1%nat
  /\ Masterchat.emitted mc = []
  /\ length (Masterchat.loops mc) = 1%nat.
Proof.
  destruct (listen_idle io _ (wf_fresh_session vid cid o) eq_refl)
    as (f & st & _ & _ & ->).
  cbn. repeat split. discriminate.
Qed.

(** X19: after [subscribe(videoId, ...)] the video id is registered and
    [get] returns the session [subscribe] returned; other video ids keep
    their registration and the pool emits nothing.  If the id was not
    registered, one session is added to the pool: it carries the given
    video and channel ids and the mode of the pool's options, listens for
    chats, has emitted nothing yet and runs one polling loop; the number of
    streams grows by one. *)
Theorem subscribe_registers (vid cid vid' : string)
    (o : Masterchat.IterateChatOptions) (p : StreamPool.t) :
  let r := StreamPool.subscribe vid cid o p in
  StreamPool.has vid r.2 = true
  /\ StreamPool.get vid r.2 = r.1
  /\ (vid' <> vid -> StreamPool.get vid' r.2 = StreamPool.get vid' p)
  /\ StreamPool.emitted r.2 = StreamPool.emitted p
  /\ (StreamPool.has vid p = false ->
      StreamPool.streamCount r.2 = S (StreamPool.streamCount p)
      /\ r.1 = Some (length (StreamPool.heap p))
      /\ exists mc,
           StreamPool.heap r.2 = StreamPool.heap p ++ [mc]
           /\ Masterchat.videoId mc = vid
           /\ Masterchat.channelId mc = cid
           /\ Masterchat.isLive mc
              = Masterchat.isLive
                  (Masterchat.new vid cid (StreamPool.options p))
           /\ Masterchat.listener mc <> None
           /\ Masterchat.chatsListenerCount mc = 1%nat
           /\ Masterchat.emitted mc = []
           /\ length (Masterchat.loops mc) = 1%nat).
Proof.
  cbn zeta.
  destruct (StreamPool.pool p !! vid) as [h|] eqn:Hlk.
  - rewrite (subscribe_registered vid cid o p h Hlk). cbn [fst snd].
    assert (Hhas : StreamPool.has vid p = true)
      by (apply has_get; now exists h).
    rewrite Hhas. unfold StreamPool.get. rewrite Hlk.
    repeat split; auto; discriminate.
  - assert (Hhas : StreamPool.has vid p = false).
    { unfold StreamPool.has. apply bool_decide_eq_false.
      rewrite Hlk. intros [x Hx]. discriminate. }
    unfold StreamPool.subscribe. rewrite Hhas. cbn [fst snd].
    unfold StreamPool.has, StreamPool.get, StreamPool.streamCount.
    cbn [StreamPool.pool StreamPool.emitted StreamPool.heap].
    rewrite lookup_insert_eq.
    split; [apply bool_decide_eq_true; eauto|].
    split; [reflexivity|].
    split; [intros Hne; now rewrite lookup_insert_ne|].
    split; [reflexivity|].
    intros _.
    split; [now apply map_size_insert_None|].
    split; [reflexivity|].
    eexists. split; [reflexivity|].
    apply subscribed_session.
Qed.

Lemma interrupt_keeps (ls : list (Masterchat.Frame * Masterchat.Phase))
    (s : Masterchat.t) :
  let s' :=
    fold_right
      (fun l acc =>
         match snd l with
         | Masterchat.AwaitDelay _ _ =>
             if Masterchat.signal_aborted (Masterchat.signal (fst l)) acc
             then Masterchat.finish (fst l) (Raise AbortError) acc
             else acc
         | _ => acc
         end) s ls in
  Masterchat.emitted s' = Masterchat.emitted s
  /\ Masterchat.abortedSignals s' = Masterchat.abortedSignals s
  /\ Masterchat.listenerAbortion s' = Masterchat.listenerAbortion s.
Proof.
  induction ls as [|l ls IH]; [cbn; auto|]. cbn [fold_right].
  cbn zeta in *. destruct IH as (He & Ha & Hl).
  destruct (snd l); try (repeat split; assumption).
  destruct (Masterchat.signal_aborted _ _); [|repeat split; assumption].
  cbn. rewrite app_nil_r. auto.
Qed.

(** [stop] on a listening session emits one end event and aborts the
    controller. *)
Lemma stop_listening (mc : Masterchat.t) :
  Masterchat.listener mc <> None ->
  Masterchat.emitted (Masterchat.stop mc)
  = Masterchat.emitted mc ++ [Masterchat.EvEnd]
  /\ Masterchat.signal_aborted (Masterchat.listenerAbortion mc)
       (Masterchat.stop mc) = true.
Proof.
  intros Hl. unfold Masterchat.stop, Masterchat.interrupt.
  destruct (Masterchat.listener mc); [|congruence].
  destruct (interrupt_keeps
              (Masterchat.loops
                 (Masterchat.emit [Masterchat.EvEnd] (Masterchat.abort mc)))
              (Masterchat.emit [Masterchat.EvEnd] (Masterchat.abort mc)))
    as (He & Ha & _).
  cbn zeta in *. split; [rewrite He; reflexivity|].
  match goal with
  | |- Masterchat.signal_aborted ?x ?s = true =>
      change (bool_decide (x ∈ Masterchat.abortedSignals s) = true)
  end.
  rewrite Ha. apply bool_decide_eq_true. cbn.
  apply elem_of_union_l, elem_of_singleton. reflexivity.
Qed.

(** X20: [unsubscribe] of a video id whose registered session is listening
    stops that session and removes the id from the registry before it
    returns: the controller of the session is aborted, the pool emits one
    end event with the metadata of that session and nothing else, and other
    video ids keep their registration.  [unsubscribe] of a video id that is
    not registered changes nothing. *)
Theorem unsubscribe_stops_and_unregisters (p : StreamPool.t)
    (vid vid' : string) (h : nat) (mc : Masterchat.t) :
  StreamPool.reachable p ->
  StreamPool.get vid p = Some h ->
  StreamPool.heap p !! h = Some mc ->
  Masterchat.listener mc <> None ->
  let p' := StreamPool.unsubscribe vid p in
  StreamPool.has vid p' = false
  /\ StreamPool.heap p' !! h = Some (Masterchat.stop mc)
  /\ Masterchat.signal_aborted (Masterchat.listenerAbortion mc)
       (Masterchat.stop mc) = true
  /\ StreamPool.emitted p'
     = StreamPool.emitted p
       ++ [StreamPool.End (Masterchat.metadata (Masterchat.stop mc))]
  /\ Masterchat.m_videoId (Masterchat.metadata (Masterchat.stop mc)) = vid
  /\ (vid' <> vid -> StreamPool.get vid' p' = StreamPool.get vid' p)
  /\ (StreamPool.get vid' p = None -> StreamPool.unsubscribe vid' p = p).
Proof.
  intros Hreach Hget Hh Hl p'.
  destruct (pool_ok_reachable p Hreach vid h Hget) as (mc' & Hmc' & Hvid).
  rewrite Hh in Hmc'. injection Hmc' as <-.
  destruct (stop_listening mc Hl) as [Hstop Hab].
  destruct (deliver_effect h Masterchat.Stop p mc Hh)
    as (new & Hnew & Hheap & He & Hp).
  cbn [Masterchat.step] in *.
  assert (Hn : new = [Masterchat.EvEnd])
    by (rewrite Hstop in Hnew; now apply app_inv_head in Hnew).
  subst new. cbn [existsb Relay.terminal orb map Relay.relayed] in *.
  subst p'. unfold StreamPool.unsubscribe at 1 2 3 4. rewrite Hget.
  unfold StreamPool.has, StreamPool.get. rewrite Hheap, He, Hp, Hvid.
  split; [apply bool_decide_eq_false; rewrite lookup_delete_eq;
          intros [x Hx]; discriminate|].
  split; [apply list_lookup_insert_eq; now apply lookup_lt_Some in Hh|].
  split; [exact Hab|].
  split; [reflexivity|].
  split; [cbn; rewrite <- Hvid;
          exact (videoId_step Masterchat.Stop mc)|].
  split; [intros Hne; now rewrite lookup_delete_ne|].
  intros Hnone. unfold StreamPool.unsubscribe, StreamPool.get.
  now rewrite Hnone.
Qed.

End PoolSubscribe.

Lemma subscribe_registers_witness :
  let o := Masterchat.mkIterate None None None in
  let p := StreamPool.new (Masterchat.mkOptions (Some Masterchat.live)) in
  let r := StreamPool.subscribe "v" "c" o p in
  StreamPool.has "v" r.2 = true
  /\ StreamPool.get "v" r.2 = Some 0%nat
  /\ StreamPool.streamCount r.2 = 1%nat.
Proof.
  intros o p r.
  destruct (subscribe_registers "v" "c" "w" o p)
    as (Hhas & Hget & _ & _ & Hnew).
  destruct (Hnew eq_refl) as (Hcount & Hr & _).
  split; [exact Hhas|]. split; [|exact Hcount].
  exact (eq_trans Hget Hr).
Defined.

Lemma unsubscribe_stops_and_unregisters_witness :
  let o := Masterchat.mkIterate None None None in
  let p := StreamPool.run
             [StreamPool.Subscribe "v" "c" o; StreamPool.Subscribe "w" "c" o]
             (StreamPool.new (Masterchat.mkOptions None)) in
  exists mc,
    StreamPool.reachable p
    /\ StreamPool.get "v" p = Some 0%nat
    /\ StreamPool.heap p !! 0%nat = Some mc
    /\ Masterchat.listener mc <> None
    /\ StreamPool.has "v" (StreamPool.unsubscribe "v" p) = false
    /\ StreamPool.get "w" (StreamPool.unsubscribe "v" p)
       = StreamPool.get "w" p.
Proof.
  intros o p.
  assert (Hr : StreamPool.reachable p)
    by (exists (Masterchat.mkOptions None),
          [StreamPool.Subscribe "v" "c" o; StreamPool.Subscribe "w" "c" o];
        reflexivity).
  assert (Hg : StreamPool.get "v" p = Some 0%nat)
    by (vm_compute; reflexivity).
  eexists. split; [exact Hr|]. split; [exact Hg|].
  split; [reflexivity|].
  assert (Hl : Masterchat.listener
                 (Masterchat.listen o
                    (Masterchat.on_chats
                       (Masterchat.new "v" "c"
                          (Masterchat.mkOptions None)))).2 <> None)
    by discriminate.
  split; [exact Hl|].
  destruct (unsubscribe_stops_and_unregisters p "v" "w" 0 _ Hr Hg eq_refl Hl)
    as (H1 & _ & _ & _ & _ & H6 & _).
  split; [exact H1|apply H6; discriminate].
Defined.

(** ** postWithRetry *)

Section PostWithRetryFacts.
Import PostWithRetry.
Context {T : Type}.

(** Retried failures: each consumes one outcome, one unit of budget and
    one wait, and is recorded. *)
Lemma post_loop_retries (fails : list Thrown) :
  forall (tail : list (Settled T)) (interval remaining : Z)
         (errs : list Thrown) (n : nat) (ws : list Z),
  Forall (fun e => retryable e = true) fails ->
  (length fails <= Z.to_nat remaining)%nat ->
  loop (map Threw fails ++ tail) interval remaining errs n ws
  = loop tail interval (remaining - Z.of_nat (length fails))
      (errs ++ fails) (n + length fails)%nat
      (ws ++ repeat interval (length fails)).
Proof.
  induction fails as [|e fails IH]; intros tail interval remaining errs n ws
    Hf Hlen.
  - cbn [map app length repeat]. rewrite !app_nil_r, Z.sub_0_r, Nat.add_0_r.
    reflexivity.
  - inversion Hf as [|? ? He Hf']; subst.
    cbn [map app length] in *.
    destruct e as [name msg|v]; [|discriminate He].
    cbn [retryable] in He. apply negb_true_iff in He.
    cbn [loop]. rewrite He.
    destruct (Z.ltb_spec 0 remaining) as [_|Hle]; [|lia].
    rewrite IH by (assumption || lia).
    cbn [repeat].
    replace (remaining - 1 - Z.of_nat (length fails))
      with (remaining - Z.of_nat (S (length fails))) by lia.
    replace (S n + length fails)%nat with (n + S (length fails))%nat by lia.
    rewrite <- !app_assoc. reflexivity.
Qed.

(** X21: when the first requests fail with errors that are [Error]
    instances not named AbortError, no more of them than the retry budget,
    and the next request resolves, [postWithRetry] returns the resolved
    body: it has made one request per failure plus one, and has waited the
    retry interval once after each failure. *)
Theorem postWithRetry_recovers (fails : list Thrown) (json : T)
    (tail : list (Settled T)) (options : option RetryOptions) :
  Forall (fun e => retryable e = true) fails ->
  (length fails <= budget options)%nat ->
  postWithRetry (map Threw fails ++ Resolved json :: tail) options
  = Some (mkRun (inl json) (S (length fails))
            (repeat (interval_of options) (length fails)) tail).
Proof.
  intros Hf Hlen. unfold postWithRetry, budget in *.
  rewrite post_loop_retries by (assumption || lia).
  cbn [loop app]. now rewrite Nat.add_0_l.
Qed.

(** X22: when as many requests as the retry budget fail with retryable
    errors and one more fails with a retryable error, [postWithRetry]
    throws that last error, carrying in [errors] all the errors in the
    order they occurred, itself last; it has made budget plus one requests
    and budget waits.  A retry count that is absent, zero or negative gives
    a budget of zero: the first failure is thrown. *)
Theorem postWithRetry_gives_up (fails : list Thrown) (last : Thrown)
    (tail : list (Settled T)) (options : option RetryOptions) :
  Forall (fun e => retryable e = true) fails ->
  retryable last = true ->
  length fails = budget options ->
  postWithRetry (map Threw fails ++ Threw last :: tail) options
  = Some (mkRun (inr (mkFailure last (Some (fails ++ [last]))))
            (S (budget options))
            (repeat (interval_of options) (budget options)) tail).
Proof.
  intros Hf Hl Hlen. unfold postWithRetry, budget in *.
  rewrite post_loop_retries by (assumption || lia).
  destruct last as [name msg|v]; [|discriminate Hl].
  cbn [retryable] in Hl. apply negb_true_iff in Hl.
  cbn [loop app]. rewrite Hl.
  destruct (Z.ltb_spec 0 (initial_remaining options
                          - Z.of_nat (length fails))) as [Hlt|_]; [lia|].
  rewrite Nat.add_0_l, Hlen. reflexivity.
Qed.

(** X23: a thrown value that is an [Error] named AbortError, or is not an
    [Error] instance at all, is rethrown as it is, with no [errors]
    property added, whatever is left of the retry budget: no wait is
    started and no further request is made after it. *)
Theorem postWithRetry_rethrows_at_once (fails : list Thrown) (e : Thrown)
    (tail : list (Settled T)) (options : option RetryOptions) :
  Forall (fun e => retryable e = true) fails ->
  (length fails <= budget options)%nat ->
  retryable e = false ->
  postWithRetry (map Threw fails ++ Threw e :: tail) options
  = Some (mkRun (inr (mkFailure e None)) (S (length fails))
            (repeat (interval_of options) (length fails)) tail).
Proof.
  intros Hf Hlen He. unfold postWithRetry, budget in *.
  rewrite post_loop_retries by (assumption || lia).
  cbn [loop app]. rewrite Nat.add_0_l.
  destruct e as [name msg|v]; [|reflexivity].
  cbn [retryable] in He. apply negb_false_iff in He. now rewrite He.
Qed.

(** The loop on a script longer than what is left of the budget. *)
Lemma post_loop_bound (script : list (Settled T)) :
  forall (interval remaining : Z) (errs : list Thrown) (n : nat)
         (ws : list Z),
  (Z.to_nat remaining < length script)%nat ->
  exists r k,
    loop script interval remaining errs n ws = Some r
    /\ (k <= Z.to_nat remaining)%nat
    /\ posts r = (n + S k)%nat
    /\ waits r = ws ++ repeat interval k
    /\ length script = (S k + length (rest r))%nat
    /\ (forall e es, result r = inr (mkFailure e (Some es)) ->
        k = Z.to_nat remaining
        /\ length es = (length errs + S k)%nat
        /\ List.last es e = e
        /\ retryable e = true).
Proof.
  induction script as [|o script IH]; intros interval remaining errs n ws
    Hlen; [cbn [length] in Hlen; lia|].
  cbn [length] in Hlen.
  assert (Hstop : forall res,
            (forall e es, res = inr (mkFailure e (Some es)) ->
             0%nat = Z.to_nat remaining
             /\ length es = (length errs + 1)%nat
             /\ List.last es e = e
             /\ retryable e = true) ->
            exists r k,
              Some (mkRun res (S n) ws script) = Some r
              /\ (k <= Z.to_nat remaining)%nat
              /\ posts r = (n + S k)%nat
              /\ waits r = ws ++ repeat interval k
              /\ length (o :: script) = (S k + length (rest r))%nat
              /\ (forall e es, result r = inr (mkFailure e (Some es)) ->
                  k = Z.to_nat remaining
                  /\ length es = (length errs + S k)%nat
                  /\ List.last es e = e
                  /\ retryable e = true)).
  { intros res Hres. eexists _, 0%nat. split; [reflexivity|].
    cbn [posts waits rest result repeat length].
    rewrite app_nil_r.
    split; [lia|]. split; [lia|]. split; [reflexivity|]. split; [lia|].
    intros e es Hes. destruct (Hres e es Hes) as (? & ? & ? & ?).
    repeat split; (lia || assumption). }
  destruct o as [json|[name msg|v]]; cbn [loop].
  - apply Hstop. discriminate.
  - destruct (String.eqb name "AbortError") eqn:Hname.
    { apply Hstop. discriminate. }
    destruct (Z.ltb_spec 0 remaining) as [Hpos|Hle].
    + destruct (IH interval (remaining - 1) (errs ++ [ErrorObject name msg])
                  (S n) (ws ++ [interval]) ltac:(lia))
        as (r & k & Hr & Hk & Hp & Hw & Hl & Hres).
      exists r, (S k). split; [exact Hr|].
      split; [lia|]. split; [lia|].
      split; [rewrite Hw, <- app_assoc; reflexivity|].
      split; [cbn [length]; lia|].
      intros e es Hes. destruct (Hres e es Hes) as (Hk' & Hlen' & Hlast & Hre).
      rewrite length_app in Hlen'. cbn [length] in Hlen'.
      repeat split; try lia; assumption.
    + apply Hstop. intros e es Heq. injection Heq as <- <-.
      rewrite length_app. cbn [length retryable]. rewrite Hname.
      repeat split; try lia. apply last_last.
  - apply Hstop. discriminate.
Qed.

(** X24: given more request outcomes than the retry budget,
    [postWithRetry] comes to an end, whatever the outcomes are.  It makes
    at least one request and at most budget plus one, each consuming one
    outcome, and waits the retry interval exactly once between two
    requests.  An [errors] list is attached to what it throws only when the
    budget is exhausted, and then holds one error per request made, the
    thrown one last. *)
Theorem postWithRetry_effort_is_bounded (script : list (Settled T))
    (options : option RetryOptions) :
  (budget options < length script)%nat ->
  exists r,
    postWithRetry script options = Some r
    /\ (1 <= posts r <= S (budget options))%nat
    /\ waits r = repeat (interval_of options) (posts r - 1)
    /\ length script = (posts r + length (rest r))%nat
    /\ (forall e es, result r = inr (mkFailure e (Some es)) ->
        posts r = S (budget options)
        /\ length es = posts r
        /\ List.last es e = e
        /\ retryable e = true).
Proof.
  intros Hlen. unfold postWithRetry, budget in *.
  destruct (post_loop_bound script (interval_of options)
              (initial_remaining options) [] 0%nat [] Hlen)
    as (r & k & Hr & Hk & Hp & Hw & Hl & Hres).
  exists r. split; [exact Hr|].
  cbn [app length] in *. rewrite Nat.add_0_l in Hp.
  split; [lia|].
  split; [rewrite Hw, Hp; f_equal; lia|].
  split; [lia|].
  intros e es Hes. destruct (Hres e es Hes) as (Hk' & Hlen' & Hlast & Hre).
  repeat split; try lia; assumption.
Qed.

End PostWithRetryFacts.

Lemma postWithRetry_recovers_witness :
  let fails := [PostWithRetry.ErrorObject "TypeError" "fetch failed";
                PostWithRetry.ErrorObject "FetchError" "reset"] in
  Forall (fun e => PostWithRetry.retryable e = true) fails
  /\ (length fails <= PostWithRetry.budget PostWithRetry.catalog_options)%nat
  /\ PostWithRetry.postWithRetry
       (map PostWithRetry.Threw fails
        ++ PostWithRetry.Resolved 7%nat :: [PostWithRetry.Resolved 8%nat])
       PostWithRetry.catalog_options
     = Some (PostWithRetry.mkRun (inl 7%nat) 3 [1000; 1000]
               [PostWithRetry.Resolved 8%nat]).
Proof.
  intros fails.
  assert (Hf : Forall (fun e => PostWithRetry.retryable e = true) fails)
    by (repeat constructor).
  assert (Hl : (length fails
                <= PostWithRetry.budget PostWithRetry.catalog_options)%nat)
    by (vm_compute; lia).
  split; [exact Hf|]. split; [exact Hl|].
  exact (postWithRetry_recovers fails 7%nat [PostWithRetry.Resolved 8%nat]
           PostWithRetry.catalog_options Hf Hl).
Defined.

Lemma postWithRetry_gives_up_witness :
  let last := PostWithRetry.ErrorObject "FetchError" "reset" in
  PostWithRetry.retryable last = true
  /\ PostWithRetry.postWithRetry
       (map PostWithRetry.Threw []
        ++ PostWithRetry.Threw last :: [PostWithRetry.Resolved 8%nat])
       None
     = Some (PostWithRetry.mkRun
               (inr (PostWithRetry.mkFailure last (Some [last]))) 1 []
               [PostWithRetry.Resolved 8%nat]).
Proof.
  intros last. split; [reflexivity|].
  exact (postWithRetry_gives_up [] last [PostWithRetry.Resolved 8%nat] None
           ltac:(constructor) eq_refl eq_refl).
Defined.

Lemma postWithRetry_rethrows_at_once_witness :
  let fails := [PostWithRetry.ErrorObject "FetchError" "reset"] in
  let e := PostWithRetry.ErrorObject "AbortError" "aborted" in
  Forall (fun e => PostWithRetry.retryable e = true) fails
  /\ PostWithRetry.retryable e = false
  /\ PostWithRetry.postWithRetry
       (map PostWithRetry.Threw fails
        ++ PostWithRetry.Threw e :: [PostWithRetry.Resolved 8%nat])
       PostWithRetry.catalog_options
     = Some (PostWithRetry.mkRun (inr (PostWithRetry.mkFailure e None)) 2
               [1000] [PostWithRetry.Resolved 8%nat]).
Proof.
  intros fails e.
  assert (Hf : Forall (fun e => PostWithRetry.retryable e = true) fails)
    by (repeat constructor).
  split; [exact Hf|]. split; [reflexivity|].
  exact (postWithRetry_rethrows_at_once fails e
           [PostWithRetry.Resolved 8%nat] PostWithRetry.catalog_options Hf
           ltac:(vm_compute; lia) eq_refl).
Defined.

Lemma postWithRetry_effort_is_bounded_witness :
  let boom := PostWithRetry.ErrorObject "FetchError" "reset" in
  let script : list (PostWithRetry.Settled nat) :=
    [PostWithRetry.Threw boom; PostWithRetry.Threw boom;
     PostWithRetry.Threw boom; PostWithRetry.Threw boom] in
  exists r,
    PostWithRetry.postWithRetry script PostWithRetry.catalog_options = Some r
    /\ (1 <= PostWithRetry.posts r <= 3)%nat.
Proof.
  intros boom script.
  destruct (postWithRetry_effort_is_bounded script
              PostWithRetry.catalog_options ltac:(vm_compute; lia))
    as (r & Hr & Hp & _).
  exists r. split; [exact Hr|exact Hp].
Defined.

(** ** After stop *)

Section AfterStop.
Context `{Decoder}.
Import Masterchat.





End AfterStop.


